(** * teleop_keyboard: keyboard teleoperation node

    A shallow embedding of [teleop_keyboard/teleop_keyboardpy.py] and the
    properties of its key-state set, velocity resolution, change gate and
    shutdown path.

    Conventions of the embedding.
    - Python [float] is IEEE binary64, taken here as [spec_float] of the
      Standard Library (signed zeros, infinities, NaN, finite values).
      [x != y] on floats is [py_ne], unary minus is [SFopp].
    - [self] is the record [Node]; a method is a computation in the monad
      [M] that threads [self] and may raise a Python exception.
    - The publisher is the list of messages handed to
      [publisher_.publish], oldest first.
    - Logger output is informational and is left out.
    - [run] and [reachable] take the callbacks of the listener thread
      and of the timer one after the other, each run to completion: the
      states between callbacks. What the two threads can see of each
      other inside a callback is the matter of [step] and [interleave],
      where each thread advances one statement at a time. *)

From Stdlib Require Import ZArith SpecFloat.
From stdpp Require Import gmap strings list.

Local Open Scope string_scope.
Local Open Scope list_scope.

(** ** Floats *)

Abbreviation float := spec_float.

(** The literal [0.0]. *)
Definition f0 : float := S754_zero false.
(** The literal [0.5], 2^52 * 2^-53. *)
Definition f0_5 : float := S754_finite false 4503599627370496 (-53).
(** The literal [1.0], 2^52 * 2^-52. *)
Definition f1 : float := S754_finite false 4503599627370496 (-52).

(** Python's [x != y] on floats: the negation of IEEE equality, so that
    [nan != nan] holds and [0.0 != -0.0] does not. *)
Definition py_ne (a b : float) : bool := negb (SFeqb a b).

Definition is_nan (a : float) : bool :=
  match a with S754_nan => true | _ => false end.

(** ** geometry_msgs *)

Module geometry_msgs.

Record Vector3 : Type := mkVector3 { x : float; y : float; z : float }.

Record Twist : Type := mkTwist { linear : Vector3; angular : Vector3 }.

(** [Vector3()] and [Twist()]: every field is [0.0]. *)
Definition Vector3_new : Vector3 := mkVector3 f0 f0 f0.
Definition Twist_new : Twist := mkTwist Vector3_new Vector3_new.

(** [twist.linear.x = v] *)
Definition set_linear_x (v : float) (t : Twist) : Twist :=
  mkTwist (mkVector3 v (y (linear t)) (z (linear t))) (angular t).

(** [twist.angular.z = v] *)
Definition set_angular_z (v : float) (t : Twist) : Twist :=
  mkTwist (linear t) (mkVector3 (x (angular t)) (y (angular t)) v).

End geometry_msgs.

Import geometry_msgs.

(** ** pynput keys *)

(** The value of [key.char]: a Python [str], or [None] for a key code
    that carries no character. These are the elements of
    [self.pressed_keys]. *)
Abbreviation pychar := (option string).

(** What the listener passes to its callbacks: a [KeyCode], which has the
    attribute [char], or a member of the enumeration [keyboard.Key]
    (Shift, Ctrl, Esc, ...), which has not. *)
Inductive key : Type :=
| KeyCode (char : pychar)
| Key (name : string).

Definition Key_esc : key := Key "esc".

Global Instance key_eq_dec : EqDecision key.
Proof. solve_decision. Defined.

(** ** The node object *)

Record Node : Type := mkNode {
  linear_speed : float;
  angular_speed : float;
  (** messages given to [publisher_.publish], oldest first *)
  publisher_ : list Twist;
  target_linear_vel : float;
  target_angular_vel : float;
  pressed_keys : gset pychar;
  last_published_twist : Twist;
  (** ghost: how many times [update_target_velocities] has run; not an
      attribute of the Python object *)
  update_calls : nat
}.

Definition set_publisher_ (v : list Twist) (s : Node) : Node :=
  mkNode (linear_speed s) (angular_speed s) v (target_linear_vel s)
    (target_angular_vel s) (pressed_keys s) (last_published_twist s)
    (update_calls s).

Definition set_target_linear_vel (v : float) (s : Node) : Node :=
  mkNode (linear_speed s) (angular_speed s) (publisher_ s) v
    (target_angular_vel s) (pressed_keys s) (last_published_twist s)
    (update_calls s).

Definition set_target_angular_vel (v : float) (s : Node) : Node :=
  mkNode (linear_speed s) (angular_speed s) (publisher_ s)
    (target_linear_vel s) v (pressed_keys s) (last_published_twist s)
    (update_calls s).

Definition set_pressed_keys (v : gset pychar) (s : Node) : Node :=
  mkNode (linear_speed s) (angular_speed s) (publisher_ s)
    (target_linear_vel s) (target_angular_vel s) v (last_published_twist s)
    (update_calls s).

Definition set_last_published_twist (v : Twist) (s : Node) : Node :=
  mkNode (linear_speed s) (angular_speed s) (publisher_ s)
    (target_linear_vel s) (target_angular_vel s) (pressed_keys s) v
    (update_calls s).

Definition tick_update_calls (s : Node) : Node :=
  mkNode (linear_speed s) (angular_speed s) (publisher_ s)
    (target_linear_vel s) (target_angular_vel s) (pressed_keys s)
    (last_published_twist s) (S (update_calls s)).

(** ** Methods as computations over [self] *)

Inductive exn : Type :=
| AttributeError
| KeyboardInterrupt
| OtherError (what : string).

Global Instance exn_eq_dec : EqDecision exn.
Proof. solve_decision. Defined.

Inductive result (A : Type) : Type :=
| Ok (a : A)
| Raise (e : exn).
Arguments Ok {A} a.
Arguments Raise {A} e.

Definition M (A : Type) : Type := Node -> result A * Node.

Definition ret {A} (a : A) : M A := fun s => (Ok a, s).

Definition bind {A B} (m : M A) (k : A -> M B) : M B :=
  fun s => match m s with
           | (Ok a, s') => k a s'
           | (Raise e, s') => (Raise e, s')
           end.

Definition raise {A} (e : exn) : M A := fun s => (Raise e, s).

(** [self.attr] *)
Definition get {A} (attr : Node -> A) : M A := fun s => (Ok (attr s), s).

(** [self.attr = v], through the setter of [attr] *)
Definition assign {A} (setter : A -> Node -> Node) (v : A) : M unit :=
  fun s => (Ok tt, setter v s).

Definition pass : M unit := ret tt.

(** [try: body except e: handler] *)
Definition try_except (body : M unit) (e : exn) (handler : M unit) : M unit :=
  fun s => match body s with
           | (Raise e', s') =>
               if decide (e' = e) then handler s' else (Raise e', s')
           | r => r
           end.

(** [try: body finally: final] *)
Definition try_finally (body : M unit) (final : M unit) : M unit :=
  fun s => match body s with
           | (Ok a, s') => final s'
           | (Raise e, s') =>
               match final s' with
               | (Ok _, s'') => (Raise e, s'')
               | r => r
               end
           end.

(** [if c: body] *)
Definition when (c : bool) (body : M unit) : M unit :=
  if c then body else pass.

Declare Scope py_scope.
Delimit Scope py_scope with py.
Notation "x <- m ;; k" := (bind m (fun x => k))
  (at level 100, m at next level, right associativity) : py_scope.
Notation "m ;; k" := (bind m (fun _ => k))
  (at level 100, right associativity) : py_scope.
Local Open Scope py_scope.

(** [key.char]: an attribute of key codes only. *)
Definition key_char (k : key) : M pychar :=
  match k with
  | KeyCode c => ret c
  | Key _ => raise AttributeError
  end.

(** [self.publisher_.publish(msg)] *)
Definition publish (msg : Twist) : M unit :=
  fun s => (Ok tt, set_publisher_ (publisher_ s ++ [msg]) s).

Definition update_target_velocities : M unit :=
  (fun s => (Ok tt, tick_update_calls s)) ;;
  assign set_target_linear_vel f0 ;;
  assign set_target_angular_vel f0 ;;
  keys <- get pressed_keys ;;
  ls <- get linear_speed ;;
  when (bool_decide (Some "w" ∈ keys)) (assign set_target_linear_vel ls) ;;
  keys <- get pressed_keys ;;
  ls <- get linear_speed ;;
  when (bool_decide (Some "s" ∈ keys))
       (assign set_target_linear_vel (SFopp ls)) ;;
  keys <- get pressed_keys ;;
  az <- get angular_speed ;;
  when (bool_decide (Some "a" ∈ keys)) (assign set_target_angular_vel az) ;;
  keys <- get pressed_keys ;;
  az <- get angular_speed ;;
  when (bool_decide (Some "d" ∈ keys))
       (assign set_target_angular_vel (SFopp az)).

Definition on_press (k : key) : M unit :=
  try_except
    (char_key <- key_char k ;;
     keys <- get pressed_keys ;;
     when (bool_decide (char_key ∉ keys))
          (assign set_pressed_keys ({[char_key]} ∪ keys) ;;
           update_target_velocities))
    AttributeError
    pass.

Definition on_release (k : key) : M unit :=
  try_except
    (char_key <- key_char k ;;
     keys <- get pressed_keys ;;
     when (bool_decide (char_key ∈ keys))
          (assign set_pressed_keys (keys ∖ {[char_key]}) ;;
           update_target_velocities))
    AttributeError
    pass ;;
  when (bool_decide (k = Key_esc)) pass.

Definition publish_twist_if_changed : M unit :=
  let twist := Twist_new in
  lin <- get target_linear_vel ;;
  let twist := set_linear_x lin twist in
  ang <- get target_angular_vel ;;
  let twist := set_angular_z ang twist in
  last <- get last_published_twist ;;
  when (py_ne (x (linear twist)) (x (linear last))
        || py_ne (z (angular twist)) (z (angular last)))
       (publish twist ;;
        assign set_last_published_twist twist).

(** [super().destroy_node()] belongs to rclpy and publishes nothing; it
    is left out. *)
Definition destroy_node : M unit :=
  let stop_twist := Twist_new in
  publish stop_twist.

(** [declare_parameter(name, default)] followed by [get_parameter(name)]:
    the value given at start-up when there is one, else the default. *)
Definition declare_parameter (default : float) (override : option float)
  : float :=
  match override with
  | Some v => v
  | None => default
  end.

(** [TeleopKeyboardNode()], with the parameter overrides of the launch. *)
Definition __init__ (linear_override angular_override : option float) : Node :=
  {| linear_speed := declare_parameter f0_5 linear_override;
     angular_speed := declare_parameter f1 angular_override;
     publisher_ := [];
     target_linear_vel := f0;
     target_angular_vel := f0;
     pressed_keys := ∅;
     last_published_twist := Twist_new;
     update_calls := 0 |}.

(** ** The executor *)

(** The callbacks that run while the node spins: the two listener
    callbacks and the 0.1 s timer. *)
Inductive callback : Type :=
| key_down (k : key)
| key_up (k : key)
| timer.

Definition run_callback (c : callback) : M unit :=
  match c with
  | key_down k => on_press k
  | key_up k => on_release k
  | timer => publish_twist_if_changed
  end.

(** How [rclpy.spin] ends: it returns, or an exception leaves it
    (Ctrl+C is [KeyboardInterrupt]). *)
Inductive spin_end : Type :=
| spin_returns
| spin_raises (e : exn).

Fixpoint spin (cs : list callback) (fin : spin_end) : M unit :=
  match cs with
  | [] => match fin with
          | spin_returns => ret tt
          | spin_raises e => raise e
          end
  | c :: cs => run_callback c ;; spin cs fin
  end.

(** [rclpy.init] and [rclpy.shutdown] belong to rclpy and publish
    nothing; they are left out. *)
Definition main (linear_override angular_override : option float)
    (cs : list callback) (fin : spin_end) : result unit * Node :=
  let node := __init__ linear_override angular_override in
  try_finally
    (try_except (spin cs fin) KeyboardInterrupt pass)
    destroy_node
    node.

(** The node after a computation. *)
Definition exec {A} (m : M A) (s : Node) : Node := snd (m s).

(** The node after a sequence of callbacks. *)
Definition run (cs : list callback) (s : Node) : Node :=
  foldl (fun s c => exec (run_callback c) s) s cs.

Definition kw : key := KeyCode (Some "w").
Definition ks : key := KeyCode (Some "s").
Definition ka : key := KeyCode (Some "a").
Definition kd : key := KeyCode (Some "d").

(** ** Reachable nodes *)

(** The nodes the program can be in between two callbacks while it
    spins: the freshly built node, and whatever a callback, run to its
    end, makes of a reachable node. The key set, the publisher and the
    last message are each written by one thread only; the register is
    written by the listener and read by the tick, and what a tick reads
    while a listener callback is under way is not a node of this kind:
    see [interleave]. *)
Inductive reachable : Node -> Prop :=
| reachable_init lo ao : reachable (__init__ lo ao)
| reachable_callback s c :
    reachable s -> reachable (exec (run_callback c) s).

(** The register pair [(target_linear_vel, target_angular_vel)]. *)
Definition target (s : Node) : float * float :=
  (target_linear_vel s, target_angular_vel s).

(** The keys that drive the robot. *)
Definition recognized : gset pychar :=
  {[ Some "w"; Some "s"; Some "a"; Some "d" ]}.

(** The key-state contract in the words of the specification: [press]
    adds a recognized key that is not held, [release] removes a held key,
    anything else is a no-op. *)
Definition KeyState_press (k : pychar) (held : gset pychar) : gset pychar :=
  if bool_decide (k ∈ recognized ∧ k ∉ held) then {[k]} ∪ held else held.

Definition KeyState_release (k : pychar) (held : gset pychar) : gset pychar :=
  if bool_decide (k ∈ held) then held ∖ {[k]} else held.

Definition KeyState_event (held : gset pychar) (c : callback) : gset pychar :=
  match c with
  | key_down (KeyCode ch) => KeyState_press ch held
  | key_up (KeyCode ch) => KeyState_release ch held
  | _ => held
  end.

(** The net effect of an event as a plain set insert or set remove of the
    character it carries. *)
Definition net_effect (held : gset pychar) (c : callback) : gset pychar :=
  match c with
  | key_down (KeyCode ch) => {[ch]} ∪ held
  | key_up (KeyCode ch) => held ∖ {[ch]}
  | _ => held
  end.

(** The message a tick builds from the register. *)
Definition sampled_twist (s : Node) : Twist :=
  set_angular_z (target_angular_vel s)
    (set_linear_x (target_linear_vel s) Twist_new).

(** The difference test of the change gate. *)
Definition differs (s : Node) : bool :=
  py_ne (target_linear_vel s) (x (linear (last_published_twist s)))
  || py_ne (target_angular_vel s) (z (angular (last_published_twist s))).

(** The register holds what resolution gives for the present key set. *)
Definition in_sync (s : Node) : Prop :=
  target s = target (exec update_target_velocities s).

(** ** Traces of published messages *)

(** The test of the change gate on two messages: [linear.x] or
    [angular.z] differ under Python's [!=]. *)
Definition changed (t prev : Twist) : bool :=
  py_ne (x (linear t)) (x (linear prev))
  || py_ne (z (angular t)) (z (angular prev)).


(** How many of the callbacks are timer ticks. *)
Fixpoint count_timers (cs : list callback) : nat :=
  match cs with
  | [] => 0
  | timer :: cs => S (count_timers cs)
  | _ :: cs => count_timers cs
  end.

(** A message as this node builds them: only [linear.x] and [angular.z]
    can be other than [0.0], and they hold 0, a speed or its negation. *)
Definition well_formed (ls az : float) (t : Twist) : Prop :=
  (x (linear t) = f0 \/ x (linear t) = ls \/ x (linear t) = SFopp ls) /\
  y (linear t) = f0 /\ z (linear t) = f0 /\
  x (angular t) = f0 /\ y (angular t) = f0 /\
  (z (angular t) = f0 \/ z (angular t) = az \/ z (angular t) = SFopp az).

(** ** The two threads, statement by statement *)

(** [on_press], [on_release] and [update_target_velocities] run on the
    listener thread (l.41-43), [publish_twist_if_changed] on the thread
    that spins the node (l.48), and the source takes no lock. The two
    threads share the register only: the listener writes
    [target_linear_vel] and [target_angular_vel], the tick reads them.
    Below each thread advances one statement at a time, every statement
    touching the register at most once. *)

(** The statements of [update_target_velocities], l.91-101. *)
Inductive statement : Type :=
| reset_linear
| reset_angular
| if_w
| if_s
| if_a
| if_d.

Definition run_statement (st : statement) : M unit :=
  match st with
  | reset_linear => assign set_target_linear_vel f0
  | reset_angular => assign set_target_angular_vel f0
  | if_w =>
      keys <- get pressed_keys ;;
      ls <- get linear_speed ;;
      when (bool_decide (Some "w" ∈ keys)) (assign set_target_linear_vel ls)
  | if_s =>
      keys <- get pressed_keys ;;
      ls <- get linear_speed ;;
      when (bool_decide (Some "s" ∈ keys))
           (assign set_target_linear_vel (SFopp ls))
  | if_a =>
      keys <- get pressed_keys ;;
      az <- get angular_speed ;;
      when (bool_decide (Some "a" ∈ keys)) (assign set_target_angular_vel az)
  | if_d =>
      keys <- get pressed_keys ;;
      az <- get angular_speed ;;
      when (bool_decide (Some "d" ∈ keys))
           (assign set_target_angular_vel (SFopp az))
  end.

Definition update_statements : list statement :=
  [reset_linear; reset_angular; if_w; if_s; if_a; if_d].

(** The statements still to run, in order, on a node. *)
Definition run_pending (p : list statement) (s : Node) : Node :=
  foldl (fun s st => exec (run_statement st) s) s p.

(** The head of [on_press], l.66-70: the test, the insertion and the call
    of [update_target_velocities], whose statements are left to run. *)
Definition begin_on_press (k : key) (s : Node) : Node * list statement :=
  match k with
  | KeyCode char_key =>
      if bool_decide (char_key ∉ pressed_keys s)
      then (tick_update_calls
              (set_pressed_keys ({[char_key]} ∪ pressed_keys s) s),
            update_statements)
      else (s, [])
  | Key _ => (s, [])
  end.

(** The head of [on_release], l.77-81. *)
Definition begin_on_release (k : key) (s : Node) : Node * list statement :=
  match k with
  | KeyCode char_key =>
      if bool_decide (char_key ∈ pressed_keys s)
      then (tick_update_calls
              (set_pressed_keys (pressed_keys s ∖ {[char_key]}) s),
            update_statements)
      else (s, [])
  | Key _ => (s, [])
  end.

(** Where a tick stands: not running, or holding its local [twist] after
    l.108, after l.109 or after l.110. *)
Inductive tick_state : Type :=
| tick_waiting
| tick_built (twist : Twist)
| tick_linear_read (twist : Twist)
| tick_angular_read (twist : Twist).

(** The end of the tick, l.113-117, on the local [twist]. *)
Definition gate (twist : Twist) : M unit :=
  last <- get last_published_twist ;;
  when (py_ne (x (linear twist)) (x (linear last))
        || py_ne (z (angular twist)) (z (angular last)))
       (publish twist ;;
        assign set_last_published_twist twist).

(** The node with what each thread has still to do. *)
Record System : Type := mkSystem {
  node : Node;
  pending : list statement;
  ticking : tick_state
}.

(** What the scheduler can do next: let a callback start, or let one of
    the threads run its next statement. The one [keyboard.Listener] of
    l.123 delivers key events one at a time on its thread, so a key
    callback starts once the one before it is over; [rclpy.spin] runs the
    timer callback on its own thread, one tick after the other. An action
    that cannot run leaves the system as it is. *)
Inductive action : Type :=
| start (c : callback)
| listener_step
| tick_step.

Definition step (a : action) (sys : System) : System :=
  match a with
  | start (key_down k) =>
      match pending sys with
      | [] => let (s, p) := begin_on_press k (node sys) in
              mkSystem s p (ticking sys)
      | _ => sys
      end
  | start (key_up k) =>
      match pending sys with
      | [] => let (s, p) := begin_on_release k (node sys) in
              mkSystem s p (ticking sys)
      | _ => sys
      end
  | start timer =>
      match ticking sys with
      | tick_waiting => mkSystem (node sys) (pending sys) (tick_built Twist_new)
      | _ => sys
      end
  | listener_step =>
      match pending sys with
      | [] => sys
      | st :: p => mkSystem (exec (run_statement st) (node sys)) p (ticking sys)
      end
  | tick_step =>
      match ticking sys with
      | tick_waiting => sys
      | tick_built twist =>
          mkSystem (node sys) (pending sys)
            (tick_linear_read
               (set_linear_x (target_linear_vel (node sys)) twist))
      | tick_linear_read twist =>
          mkSystem (node sys) (pending sys)
            (tick_angular_read
               (set_angular_z (target_angular_vel (node sys)) twist))
      | tick_angular_read twist =>
          mkSystem (exec (gate twist) (node sys)) (pending sys) tick_waiting
      end
  end.

(** A schedule run from a system, and the systems it goes through. *)
Definition interleave (sched : list action) (sys : System) : System :=
  foldl (fun sys a => step a sys) sys sched.

Fixpoint history (sched : list action) (sys : System) : list System :=
  sys :: match sched with
         | [] => []
         | a :: sched => history sched (step a sys)
         end.

(** The system when [main] starts to spin. *)
Definition boot (lo ao : option float) : System :=
  mkSystem (__init__ lo ao) [] tick_waiting.

(** A key callback and a tick run without the other thread in between. *)
Definition whole_key_callback (c : callback) : list action :=
  start c :: replicate (length update_statements) listener_step.

Definition whole_tick : list action :=
  [start timer; tick_step; tick_step; tick_step].

(** A tick that reads [target_linear_vel], lets the listener run the
    release of 'w' and the press of 'a', and then reads
    [target_angular_vel]; before it, 'w' is pressed and a tick sends
    (0.5, 0). *)
Definition torn_schedule : list action :=
  whole_key_callback (key_down kw) ++ whole_tick
  ++ [start timer; tick_step]
  ++ whole_key_callback (key_up kw)
  ++ whole_key_callback (key_down ka)
  ++ [tick_step; tick_step].

(** Two nodes that agree on all that resolution reads and writes. *)
Definition same_motion (s1 s2 : Node) : Prop :=
  pressed_keys s1 = pressed_keys s2 /\
  linear_speed s1 = linear_speed s2 /\
  angular_speed s1 = angular_speed s2 /\
  target_linear_vel s1 = target_linear_vel s2 /\
  target_angular_vel s1 = target_angular_vel s2.

(** Once the statements still pending have run, the register holds the
    resolution of the key set. With nothing pending this is [in_sync]. *)
Definition resolving (sys : System) : Prop :=
  target (run_pending (pending sys) (node sys))
  = target (exec update_target_velocities (node sys)).

(** The local [twist] of the tick in progress. *)
Definition tick_twist (t : tick_state) : Twist :=
  match t with
  | tick_waiting => Twist_new
  | tick_built twist | tick_linear_read twist | tick_angular_read twist => twist
  end.

(** Every value in the register, in the tick's local message and in the
    published messages is, field by field, 0, a speed or its negation. *)
Definition in_range (ls az : float) (sys : System) : Prop :=
  linear_speed (node sys) = ls /\
  angular_speed (node sys) = az /\
  (target_linear_vel (node sys) = f0 \/ target_linear_vel (node sys) = ls \/
   target_linear_vel (node sys) = SFopp ls) /\
  (target_angular_vel (node sys) = f0 \/ target_angular_vel (node sys) = az \/
   target_angular_vel (node sys) = SFopp az) /\
  well_formed ls az (tick_twist (ticking sys)) /\
  Forall (well_formed ls az) (publisher_ (node sys)).

(** ** Sample nodes *)

(** The node with all four keys held, default speeds. *)
Definition all_held : Node :=
  run [key_down kw; key_down ks; key_down ka; key_down kd] (__init__ None None).

(** The node moving forward at the default speed, its command already
    sent, and the same node after 'w' is released. *)
Definition forward_sent : Node :=
  run [key_down kw; timer] (__init__ None None).

Definition forward_released : Node :=
  run [key_down kw; timer; key_up kw] (__init__ None None).

(** The node started with [linear_speed] NaN, 'w' held. *)
Definition nan_forward : Node :=
  run [key_down kw] (__init__ (Some S754_nan) None).

(** ** Equations of the methods *)

Ltac py_unfold :=
  repeat progress
    unfold exec, target, on_press, on_release, publish_twist_if_changed,
      update_target_velocities, destroy_node, try_except, try_finally, when,
      bind, ret, raise, get, assign, pass, publish, key_char;
  simpl.

(** Case analysis on every membership test met on the way. *)
Ltac py_cases :=
  repeat (case_bool_decide; simpl in * );
  try reflexivity; try contradiction.

Lemma update_target_velocities_ok s :
  fst (update_target_velocities s) = Ok tt.
Proof. py_unfold. py_cases. Qed.

Lemma update_target_velocities_linear s :
  target_linear_vel (exec update_target_velocities s) =
    if bool_decide (Some "s" ∈ pressed_keys s) then SFopp (linear_speed s)
    else if bool_decide (Some "w" ∈ pressed_keys s) then linear_speed s
    else f0.
Proof. py_unfold. py_cases. Qed.

Lemma update_target_velocities_angular s :
  target_angular_vel (exec update_target_velocities s) =
    if bool_decide (Some "d" ∈ pressed_keys s) then SFopp (angular_speed s)
    else if bool_decide (Some "a" ∈ pressed_keys s) then angular_speed s
    else f0.
Proof. py_unfold. py_cases. Qed.

(** What resolution leaves alone. *)
Lemma update_target_velocities_frame s :
  let s' := exec update_target_velocities s in
  pressed_keys s' = pressed_keys s /\
  linear_speed s' = linear_speed s /\
  angular_speed s' = angular_speed s /\
  publisher_ s' = publisher_ s /\
  last_published_twist s' = last_published_twist s /\
  update_calls s' = S (update_calls s).
Proof. py_unfold. py_cases; auto 10. Qed.

Lemma on_press_special name s : on_press (Key name) s = (Ok tt, s).
Proof. reflexivity. Qed.

Lemma on_press_held c s :
  c ∈ pressed_keys s -> on_press (KeyCode c) s = (Ok tt, s).
Proof.
  intros Hin. unfold on_press, try_except, key_char, bind, ret, get, when.
  rewrite bool_decide_eq_false_2; [reflexivity | tauto].
Qed.

Lemma on_press_new c s :
  c ∉ pressed_keys s ->
  on_press (KeyCode c) s =
    (Ok tt, exec update_target_velocities
              (set_pressed_keys ({[c]} ∪ pressed_keys s) s)).
Proof.
  intros Hnin. unfold on_press, try_except, key_char, bind at 1 2, ret, get, when.
  rewrite bool_decide_eq_true_2 by assumption.
  unfold bind at 1, assign.
  pose proof (update_target_velocities_ok
                (set_pressed_keys ({[c]} ∪ pressed_keys s) s)) as Hok.
  unfold exec.
  destruct (update_target_velocities _) as [r s']; simpl in *; subst r.
  reflexivity.
Qed.

Lemma on_release_special name s : on_release (Key name) s = (Ok tt, s).
Proof. py_unfold. py_cases. Qed.

Lemma on_release_absent c s :
  c ∉ pressed_keys s -> on_release (KeyCode c) s = (Ok tt, s).
Proof.
  intros Hnin. unfold on_release, try_except, key_char, bind, ret, get, when.
  rewrite bool_decide_eq_false_2 by assumption.
  rewrite bool_decide_eq_false_2 by discriminate.
  reflexivity.
Qed.

Lemma on_release_held c s :
  c ∈ pressed_keys s ->
  on_release (KeyCode c) s =
    (Ok tt, exec update_target_velocities
              (set_pressed_keys (pressed_keys s ∖ {[c]}) s)).
Proof.
  intros Hin.
  unfold on_release, try_except, key_char, bind at 1 2 3, ret, get, when.
  rewrite bool_decide_eq_true_2 by assumption.
  rewrite bool_decide_eq_false_2 by discriminate.
  unfold bind at 1, assign, pass, ret.
  pose proof (update_target_velocities_ok
                (set_pressed_keys (pressed_keys s ∖ {[c]}) s)) as Hok.
  unfold exec.
  destruct (update_target_velocities _) as [r s']; simpl in *; subst r.
  reflexivity.
Qed.

Lemma publish_twist_if_changed_eq s :
  publish_twist_if_changed s =
    if differs s
    then (Ok tt, set_last_published_twist (sampled_twist s)
                   (set_publisher_ (publisher_ s ++ [sampled_twist s]) s))
    else (Ok tt, s).
Proof.
  unfold differs, sampled_twist. py_unfold.
  destruct (py_ne _ _ || py_ne _ _); reflexivity.
Qed.

Lemma run_callback_ok c s : fst (run_callback c s) = Ok tt.
Proof.
  destruct c as [k | k |]; simpl.
  - destruct k as [ch | name]; [| reflexivity].
    destruct (decide (ch ∈ pressed_keys s)) as [Hin | Hnin].
    + rewrite on_press_held by assumption. reflexivity.
    + rewrite on_press_new by assumption. reflexivity.
  - destruct k as [ch | name]; [| rewrite on_release_special; reflexivity].
    destruct (decide (ch ∈ pressed_keys s)) as [Hin | Hnin].
    + rewrite on_release_held by assumption. reflexivity.
    + rewrite on_release_absent by assumption. reflexivity.
  - rewrite publish_twist_if_changed_eq. destruct (differs s); reflexivity.
Qed.

Lemma run_callback_exec c s : run_callback c s = (Ok tt, exec (run_callback c) s).
Proof.
  pose proof (run_callback_ok c s) as Hok. unfold exec.
  destruct (run_callback c s) as [r s']; simpl in *. congruence.
Qed.

(** Spinning runs the callbacks in order and ends as [fin] says. *)
Lemma spin_run cs fin s :
  spin cs fin s =
    (match fin with spin_returns => Ok tt | spin_raises e => Raise e end,
     run cs s).
Proof.
  revert s. induction cs as [| c cs IH]; intros s; simpl.
  - destruct fin; reflexivity.
  - unfold bind. rewrite run_callback_exec. apply IH.
Qed.

Lemma run_app cs1 cs2 s : run (cs1 ++ cs2) s = run cs2 (run cs1 s).
Proof. unfold run. apply foldl_app. Qed.

Lemma reachable_run cs s : reachable s -> reachable (run cs s).
Proof.
  revert s. induction cs as [| c cs IH]; intros s Hs; simpl; [assumption |].
  apply IH. constructor. assumption.
Qed.

Lemma exec_on_press k s :
  exec (on_press k) s =
    match k with
    | KeyCode c =>
        if bool_decide (c ∈ pressed_keys s) then s
        else exec update_target_velocities
               (set_pressed_keys ({[c]} ∪ pressed_keys s) s)
    | Key _ => s
    end.
Proof.
  destruct k as [c | name]; [| reflexivity].
  case_bool_decide as Hc.
  - unfold exec at 1. rewrite on_press_held by assumption. reflexivity.
  - unfold exec at 1. rewrite on_press_new by assumption. reflexivity.
Qed.

Lemma exec_on_release k s :
  exec (on_release k) s =
    match k with
    | KeyCode c =>
        if bool_decide (c ∈ pressed_keys s)
        then exec update_target_velocities
               (set_pressed_keys (pressed_keys s ∖ {[c]}) s)
        else s
    | Key _ => s
    end.
Proof.
  destruct k as [c | name].
  - case_bool_decide as Hc.
    + unfold exec at 1. rewrite on_release_held by assumption. reflexivity.
    + unfold exec at 1. rewrite on_release_absent by assumption. reflexivity.
  - unfold exec. rewrite on_release_special. reflexivity.
Qed.

Lemma exec_publish_twist_if_changed s :
  exec publish_twist_if_changed s =
    if differs s
    then set_last_published_twist (sampled_twist s)
           (set_publisher_ (publisher_ s ++ [sampled_twist s]) s)
    else s.
Proof.
  unfold exec. rewrite publish_twist_if_changed_eq.
  destruct (differs s); reflexivity.
Qed.

(** Key events leave the publisher, the change gate and the
    configuration alone. *)
Lemma key_callback_frame c s :
  c <> timer ->
  let s' := exec (run_callback c) s in
  publisher_ s' = publisher_ s /\
  last_published_twist s' = last_published_twist s /\
  linear_speed s' = linear_speed s /\
  angular_speed s' = angular_speed s.
Proof.
  intros Hc. destruct c as [k | k |]; [| | congruence]; simpl.
  - rewrite exec_on_press. destruct k as [ch | name]; [| auto].
    case_bool_decide; [auto |].
    pose proof (update_target_velocities_frame
                  (set_pressed_keys ({[ch]} ∪ pressed_keys s) s)) as Hf.
    simpl in Hf. tauto.
  - rewrite exec_on_release. destruct k as [ch | name]; [| auto].
    case_bool_decide; [| auto].
    pose proof (update_target_velocities_frame
                  (set_pressed_keys (pressed_keys s ∖ {[ch]}) s)) as Hf.
    simpl in Hf. tauto.
Qed.

(** A tick leaves the register, the key set and the configuration
    alone. *)
Lemma timer_frame s :
  let s' := exec publish_twist_if_changed s in
  target s' = target s /\
  pressed_keys s' = pressed_keys s /\
  linear_speed s' = linear_speed s /\
  angular_speed s' = angular_speed s /\
  update_calls s' = update_calls s.
Proof.
  simpl. rewrite exec_publish_twist_if_changed.
  destruct (differs s); auto 10.
Qed.

(** ** The register follows the key set *)

Lemma target_update_ext s1 s2 :
  pressed_keys s1 = pressed_keys s2 ->
  linear_speed s1 = linear_speed s2 ->
  angular_speed s1 = angular_speed s2 ->
  target (exec update_target_velocities s1) =
  target (exec update_target_velocities s2).
Proof.
  intros Hk Hl Ha. unfold target.
  rewrite !update_target_velocities_linear, !update_target_velocities_angular.
  rewrite Hk, Hl, Ha. reflexivity.
Qed.

Lemma in_sync_update s : in_sync (exec update_target_velocities s).
Proof.
  unfold in_sync.
  pose proof (update_target_velocities_frame s) as Hf. simpl in Hf.
  symmetry. apply target_update_ext; tauto.
Qed.

Lemma reachable_in_sync s : reachable s -> in_sync s.
Proof.
  induction 1 as [lo ao | s c Hs IH].
  - unfold in_sync, target.
    rewrite update_target_velocities_linear, update_target_velocities_angular.
    simpl. rewrite !bool_decide_eq_false_2 by set_solver. reflexivity.
  - destruct c as [k | k |]; simpl.
    + rewrite exec_on_press. destruct k as [ch | name]; [| assumption].
      case_bool_decide; [assumption | apply in_sync_update].
    + rewrite exec_on_release. destruct k as [ch | name]; [| assumption].
      case_bool_decide; [apply in_sync_update | assumption].
    + unfold in_sync in *.
      pose proof (timer_frame s) as Hf. simpl in Hf.
      destruct Hf as (Ht & Hk & Hl & Ha & _).
      rewrite Ht, IH. symmetry. apply target_update_ext; assumption.
Qed.

(** ** Shutdown *)

Lemma main_eq lo ao cs fin :
  main lo ao cs fin =
    (match fin with
     | spin_returns => Ok tt
     | spin_raises e =>
         if decide (e = KeyboardInterrupt) then Ok tt else Raise e
     end,
     exec destroy_node (run cs (__init__ lo ao))).
Proof.
  unfold main, try_finally, try_except. rewrite spin_run.
  destruct fin as [| e]; [reflexivity |].
  destruct (decide (e = KeyboardInterrupt)); reflexivity.
Qed.

(** C1. When [main] leaves [rclpy.spin], by return or by an exception
    such as the interrupt, [destroy_node] hands exactly one message to
    the publisher after everything the ticks have sent; that message is
    the zero command [Twist()], it is sent whatever the change gate
    holds, and it is the last message of the run. *)
Theorem shutdown_sends_one_final_stop lo ao cs fin :
  let node := snd (main lo ao cs fin) in
  publisher_ node = publisher_ (run cs (__init__ lo ao)) ++ [Twist_new] /\
  last (publisher_ node) = Some Twist_new /\
  (x (linear Twist_new) = f0 /\ z (angular Twist_new) = f0) /\
  (forall s, publisher_ (exec destroy_node s) = publisher_ s ++ [Twist_new]) /\
  (fin = spin_returns \/ fin = spin_raises KeyboardInterrupt ->
   fst (main lo ao cs fin) = Ok tt).
Proof.
  simpl. rewrite main_eq. simpl.
  repeat split.
  - apply last_snoc.
  - intros [-> | ->]; reflexivity.
Qed.

Lemma shutdown_sends_one_final_stop_witness :
  fst (main None None
         [key_down kw; timer; key_up kw; timer]
         (spin_raises KeyboardInterrupt)) = Ok tt.
Proof.
  apply (shutdown_sends_one_final_stop None None
           [key_down kw; timer; key_up kw; timer]
           (spin_raises KeyboardInterrupt)).
  right. reflexivity.
Defined.

(** The end-to-end run of the specification: the last regular emission
    is already the zero command, and shutdown sends it once more. *)
Example end_to_end :
  map (fun t => (x (linear t), z (angular t)))
    (publisher_ (snd (main None None
       [key_down kw; timer; key_down ka; timer;
        key_up kw; timer; key_up ka; timer; timer]
       (spin_raises KeyboardInterrupt)))) =
  [(f0_5, f0); (f0_5, f1); (f0, f1); (f0, f0); (f0, f0)].
Proof. vm_compute. reflexivity. Qed.

(** ** Resolution *)

(** C2, as the code has it. With both keys of an axis held the key
    tested last wins: 'w' and 's' give [-linear_speed], 'a' and 'd' give
    [-angular_speed], both straight after a resolution and in the
    register of every reachable node. *)
Theorem last_checked_key_wins s :
  (Some "w" ∈ pressed_keys s -> Some "s" ∈ pressed_keys s ->
   target_linear_vel (exec update_target_velocities s)
     = SFopp (linear_speed s) /\
   (reachable s -> target_linear_vel s = SFopp (linear_speed s))) /\
  (Some "a" ∈ pressed_keys s -> Some "d" ∈ pressed_keys s ->
   target_angular_vel (exec update_target_velocities s)
     = SFopp (angular_speed s) /\
   (reachable s -> target_angular_vel s = SFopp (angular_speed s))).
Proof.
  assert (Hsync : reachable s -> target s = target (exec update_target_velocities s))
    by apply reachable_in_sync.
  unfold target in Hsync.
  split; intros _ Hlast.
  - assert (Hl : target_linear_vel (exec update_target_velocities s)
                 = SFopp (linear_speed s)).
    { rewrite update_target_velocities_linear.
      rewrite bool_decide_eq_true_2 by assumption. reflexivity. }
    split; [exact Hl |].
    intros Hr. specialize (Hsync Hr). congruence.
  - assert (Ha : target_angular_vel (exec update_target_velocities s)
                 = SFopp (angular_speed s)).
    { rewrite update_target_velocities_angular.
      rewrite bool_decide_eq_true_2 by assumption. reflexivity. }
    split; [exact Ha |].
    intros Hr. specialize (Hsync Hr). congruence.
Qed.

Lemma all_held_reachable : reachable all_held.
Proof. apply reachable_run. constructor. Qed.

Lemma last_checked_key_wins_witness :
  target_linear_vel all_held = SFopp f0_5 /\
  target_angular_vel all_held = SFopp f1.
Proof.
  destruct (last_checked_key_wins all_held) as [Hl Ha].
  split.
  - apply Hl; [vm_compute; reflexivity | vm_compute; reflexivity |].
    exact all_held_reachable.
  - apply Ha; [vm_compute; reflexivity | vm_compute; reflexivity |].
    exact all_held_reachable.
Defined.

(** C2 as stated fails: with 'w' and 's' held the linear velocity is not
    [+linear_speed], and with 'a' and 'd' held the angular velocity is
    not [+angular_speed]. *)
Lemma first_checked_key_wins_counterexample :
  let s := all_held in
  (Some "w" ∈ pressed_keys s /\ Some "s" ∈ pressed_keys s /\
   target_linear_vel s <> linear_speed s /\
   target_linear_vel (exec update_target_velocities s) <> linear_speed s) /\
  (Some "a" ∈ pressed_keys s /\ Some "d" ∈ pressed_keys s /\
   target_angular_vel s <> angular_speed s /\
   target_angular_vel (exec update_target_velocities s) <> angular_speed s).
Proof.
  cbv zeta.
  split; (split; [| split; [| split]]);
    vm_compute; first [reflexivity | discriminate].
Qed.

Lemma target_update_no_keys s :
  pressed_keys s = ∅ ->
  target (exec update_target_velocities s) = (f0, f0).
Proof.
  intros Hk. unfold target.
  rewrite update_target_velocities_linear, update_target_velocities_angular.
  rewrite Hk, !bool_decide_eq_false_2 by apply not_elem_of_empty.
  reflexivity.
Qed.

(** C3. Resolution never fails and its result depends on nothing but the
    key set and the two speeds (so resolving twice changes nothing); no
    key gives (0, 0), 'w' alone gives (+linear_speed, 0), and 'w' with
    'd' gives (+linear_speed, -angular_speed). *)
Theorem resolve_pure_and_examples (s s' : Node) :
  fst (update_target_velocities s) = Ok tt /\
  (pressed_keys s = pressed_keys s' ->
   linear_speed s = linear_speed s' ->
   angular_speed s = angular_speed s' ->
   target (exec update_target_velocities s)
     = target (exec update_target_velocities s')) /\
  target (exec update_target_velocities (exec update_target_velocities s))
    = target (exec update_target_velocities s) /\
  (pressed_keys s = ∅ ->
   target (exec update_target_velocities s) = (f0, f0)) /\
  (pressed_keys s = {[ Some "w" ]} ->
   target (exec update_target_velocities s) = (linear_speed s, f0)) /\
  (pressed_keys s = {[ Some "w"; Some "d" ]} ->
   target (exec update_target_velocities s)
     = (linear_speed s, SFopp (angular_speed s))).
Proof.
  split; [apply update_target_velocities_ok |].
  split; [apply target_update_ext |].
  split; [symmetry; apply in_sync_update |].
  unfold target.
  split; [apply (target_update_no_keys s) |].
  rewrite update_target_velocities_linear, update_target_velocities_angular.
  split; intros ->.
  - rewrite (bool_decide_eq_true_2 (Some "w" ∈ _)) by set_solver.
    rewrite !bool_decide_eq_false_2 by set_solver. reflexivity.
  - rewrite (bool_decide_eq_true_2 (Some "w" ∈ _)) by set_solver.
    rewrite (bool_decide_eq_true_2 (Some "d" ∈ _)) by set_solver.
    rewrite (bool_decide_eq_false_2 (Some "s" ∈ _))
      by (rewrite elem_of_union, !elem_of_singleton; intros [? | ?];
          discriminate).
    reflexivity.
Qed.

Lemma resolve_pure_and_examples_witness :
  (target (exec update_target_velocities
             (run [key_down kw; key_down kd] (__init__ None None)))
   = target (exec update_target_velocities
               (run [key_down kd; timer; key_down kw; timer]
                  (__init__ None None)))) /\
  target (exec update_target_velocities (__init__ None None)) = (f0, f0) /\
  target (exec update_target_velocities
            (run [key_down kw] (__init__ None None))) = (f0_5, f0) /\
  target (exec update_target_velocities
            (run [key_down kw; key_down kd] (__init__ None None)))
    = (f0_5, SFopp f1).
Proof.
  split; [| split; [| split]].
  - apply (resolve_pure_and_examples
             (run [key_down kw; key_down kd] (__init__ None None))
             (run [key_down kd; timer; key_down kw; timer]
                (__init__ None None)));
      vm_compute; reflexivity.
  - apply (resolve_pure_and_examples (__init__ None None) (__init__ None None)).
    reflexivity.
  - apply (resolve_pure_and_examples
             (run [key_down kw] (__init__ None None)) (__init__ None None)).
    vm_compute. reflexivity.
  - apply (resolve_pure_and_examples
             (run [key_down kw; key_down kd] (__init__ None None))
             (__init__ None None)).
    vm_compute. reflexivity.
Defined.

(** ** The change gate *)

Lemma py_ne_refl a : is_nan a = false -> py_ne a a = false.
Proof.
  intros Hn. unfold py_ne, SFeqb.
  destruct a as [sg | sg | | sg m e]; simpl in *; try discriminate.
  - reflexivity.
  - destruct sg; reflexivity.
  - rewrite Z.compare_refl, Pos.compare_cont_refl. destruct sg; reflexivity.
Qed.

(** The difference test reads the register and the last message only. *)
Lemma differs_ext s1 s2 :
  target s1 = target s2 ->
  last_published_twist s1 = last_published_twist s2 ->
  differs s1 = differs s2.
Proof.
  unfold target, differs. intros Ht Hl. injection Ht as Ht1 Ht2.
  rewrite Ht1, Ht2, Hl. reflexivity.
Qed.

(** Once a tick has run on a register free of NaN, the gate is shut. *)
Lemma differs_after_tick s :
  is_nan (target_linear_vel s) = false ->
  is_nan (target_angular_vel s) = false ->
  differs (exec publish_twist_if_changed s) = false.
Proof.
  intros Hl Ha. rewrite exec_publish_twist_if_changed.
  destruct (differs s) eqn:Hd; [| exact Hd].
  unfold differs; simpl. rewrite !py_ne_refl by assumption. reflexivity.
Qed.

Lemma tick_idle s :
  differs s = false -> exec publish_twist_if_changed s = s.
Proof. intros Hd. rewrite exec_publish_twist_if_changed, Hd. reflexivity. Qed.

Lemma ticks_idle n s :
  differs s = false -> run (replicate n timer) s = s.
Proof.
  intros Hd. induction n as [| n IH]; [reflexivity |].
  simpl. rewrite tick_idle by assumption. exact IH.
Qed.

(** A run of key events leaves the publisher and the last message as
    they were. *)
Lemma key_run_frame ks s :
  Forall (fun c => c <> timer) ks ->
  publisher_ (run ks s) = publisher_ s /\
  last_published_twist (run ks s) = last_published_twist s.
Proof.
  intros Hks. revert s.
  induction Hks as [| c ks Hc _ IH]; intros s; [split; reflexivity |].
  simpl. destruct (IH (exec (run_callback c) s)) as [Hp Hl].
  pose proof (key_callback_frame c s Hc) as Hf. simpl in Hf.
  rewrite Hp, Hl. tauto.
Qed.

(** X16. Away from NaN the change gate is idempotent. When neither
    component of the register is NaN, a tick shuts the gate: the next
    tick sends nothing, also when key events in between leave the
    register at the same value, so two ticks send at most one message.
    With no key held, any number of ticks sends the zero command once if
    the last message differs from it and never otherwise. *)
Theorem change_gate_idempotent_without_nan (s : Node) :
  (is_nan (target_linear_vel s) = false ->
   is_nan (target_angular_vel s) = false ->
   let s1 := exec publish_twist_if_changed s in
   (publisher_ (exec publish_twist_if_changed s1) = publisher_ s1 /\
    length (publisher_ (exec publish_twist_if_changed s1))
      <= length (publisher_ s) + 1) /\
   (forall ks, Forall (fun c => c <> timer) ks ->
      target (run ks s1) = target s ->
      publisher_ (exec publish_twist_if_changed (run ks s1))
        = publisher_ s1)) /\
  (reachable s -> pressed_keys s = ∅ ->
   forall n, publisher_ (run (replicate (S n) timer) s)
             = publisher_ s ++ (if differs s then [Twist_new] else [])).
Proof.
  split.
  - intros Hl Ha s1.
    pose proof (differs_after_tick s Hl Ha) as Hd. fold s1 in Hd.
    split; [split |].
    + rewrite tick_idle by assumption. reflexivity.
    + rewrite tick_idle by assumption. subst s1.
      rewrite exec_publish_twist_if_changed.
      destruct (differs s); simpl; [rewrite length_app; simpl |]; lia.
    + intros ks Hks Ht.
      destruct (key_run_frame ks s1 Hks) as [Hp Hlast].
      rewrite tick_idle; [exact Hp |].
      rewrite <- Hd. apply differs_ext; [| exact Hlast].
      rewrite Ht. symmetry. apply timer_frame.
  - intros Hr Hk n.
    assert (Ht : target s = (f0, f0)).
    { rewrite (reachable_in_sync s Hr).
      apply target_update_no_keys. exact Hk. }
    unfold target in Ht. injection Ht as Htl Hta.
    change (run (replicate (S n) timer) s)
      with (run (replicate n timer) (exec publish_twist_if_changed s)).
    rewrite ticks_idle
      by (apply differs_after_tick; [rewrite Htl | rewrite Hta]; reflexivity).
    rewrite exec_publish_twist_if_changed.
    destruct (differs s); simpl; [| rewrite app_nil_r; reflexivity].
    unfold sampled_twist. rewrite Htl, Hta. reflexivity.
Qed.

Lemma change_gate_idempotent_without_nan_witness :
  length (publisher_ (run [timer; timer] forward_sent))
    <= length (publisher_ forward_sent) + 1 /\
  publisher_ (run [timer; timer; timer] forward_released)
    = publisher_ forward_released ++ [Twist_new].
Proof.
  split.
  - apply (change_gate_idempotent_without_nan forward_sent);
      vm_compute; reflexivity.
  - assert (Hd : differs forward_released = true)
      by (vm_compute; reflexivity).
    pose proof (proj2 (change_gate_idempotent_without_nan forward_released)
                  (reachable_run [key_down kw; timer; key_up kw] _
                     (reachable_init None None))) as Hstop.
    rewrite Hd in Hstop. apply (Hstop ltac:(vm_compute; reflexivity) 2).
Defined.

(** C4. The change gate at a NaN register. The docstrings of the class
    (l.10-13) and of [publish_twist_if_changed] (l.104-107) promise a
    message only when the state changes. With the [linear_speed]
    parameter set to NaN and 'w' held, the register holds NaN, and as
    [nan != nan] is true in Python the test of l.113-114 passes on every
    tick: two consecutive ticks on the unchanged register send two
    messages, not at most one. *)
Lemma change_gate_nan_counterexample :
  let s := nan_forward in
  let s1 := exec publish_twist_if_changed s in
  let s2 := exec publish_twist_if_changed s1 in
  reachable s /\
  target s1 = target s /\ target s2 = target s /\
  length (publisher_ s2) = length (publisher_ s) + 2.
Proof.
  cbv zeta. split; [apply reachable_run; constructor |].
  split; [| split]; vm_compute; reflexivity.
Qed.

(** ** Key events *)

(** Resolution looks at the four recognized keys only. *)
Lemma target_update_recognized s1 s2 :
  (forall k, k ∈ recognized -> k ∈ pressed_keys s1 <-> k ∈ pressed_keys s2) ->
  linear_speed s1 = linear_speed s2 ->
  angular_speed s1 = angular_speed s2 ->
  target (exec update_target_velocities s1) =
  target (exec update_target_velocities s2).
Proof.
  intros Hk Hl Ha. unfold target.
  rewrite !update_target_velocities_linear, !update_target_velocities_angular.
  rewrite Hl, Ha.
  assert (Hb : forall k, k ∈ recognized ->
                 bool_decide (k ∈ pressed_keys s1)
                 = bool_decide (k ∈ pressed_keys s2))
    by (intros k Hin; apply bool_decide_ext, Hk, Hin).
  rewrite !Hb by (unfold recognized; set_solver).
  reflexivity.
Qed.

(** C5, as the code has it. A key-down of a key without a character
    (Shift, Ctrl, Esc, ...) is ignored: no error and the node is
    unchanged. A key-down of a character other than 'w', 's', 'a', 'd'
    raises no error and leaves the register, the publisher and the last
    message unchanged, but the character joins the key set. *)
Theorem on_press_outside_alphabet (s : Node) :
  (forall name, on_press (Key name) s = (Ok tt, s)) /\
  (forall c, c ∉ recognized -> reachable s ->
     let s' := exec (on_press (KeyCode c)) s in
     fst (on_press (KeyCode c) s) = Ok tt /\
     pressed_keys s' = {[c]} ∪ pressed_keys s /\
     target s' = target s /\
     publisher_ s' = publisher_ s /\
     last_published_twist s' = last_published_twist s).
Proof.
  split; [intros name; apply on_press_special |].
  intros c Hc Hr s'.
  split; [apply (run_callback_ok (key_down (KeyCode c))) |].
  pose proof (key_callback_frame (key_down (KeyCode c)) s ltac:(discriminate))
    as Hf. simpl in Hf. fold s' in Hf.
  assert (Hkt : pressed_keys s' = {[c]} ∪ pressed_keys s /\ target s' = target s);
    [| tauto].
  subst s'. rewrite exec_on_press. case_bool_decide as Hin.
  - split; [| reflexivity].
    symmetry. apply subseteq_union_1_L, singleton_subseteq_l, Hin.
  - split.
    + exact (proj1 (update_target_velocities_frame
                      (set_pressed_keys ({[c]} ∪ pressed_keys s) s))).
    + rewrite (reachable_in_sync s Hr).
      apply target_update_recognized; try reflexivity.
      intros k Hk. simpl. rewrite elem_of_union, elem_of_singleton.
      split; [| tauto]. intros [-> | Hin']; [contradiction | exact Hin'].
Qed.

Lemma on_press_outside_alphabet_witness :
  let s := run [key_down kw; timer] (__init__ None None) in
  let s' := exec (on_press (KeyCode (Some "x"))) s in
  on_press (Key "shift") s = (Ok tt, s) /\
  pressed_keys s' = {[Some "x"]} ∪ pressed_keys s /\
  target s' = target s.
Proof.
  cbv zeta.
  pose proof (on_press_outside_alphabet
                (run [key_down kw; timer] (__init__ None None))) as [Hs Hc].
  split; [apply Hs |].
  assert (Hx : Some "x" ∉ recognized).
  { unfold recognized. rewrite !elem_of_union, !elem_of_singleton.
    intros [[[? | ?] | ?] | ?]; discriminate. }
  destruct (Hc (Some "x") Hx
              (reachable_run [key_down kw; timer] _ (reachable_init None None)))
    as (_ & Hp & Ht & _).
  split; assumption.
Defined.

(** C5 as stated fails: a key-down of 'x' changes the key set. *)
Lemma unrecognized_char_counterexample :
  let s := __init__ None None in
  let s' := exec (on_press (KeyCode (Some "x"))) s in
  (Some "x" ∉ recognized) /\
  (Some "x" ∉ pressed_keys s) /\
  (Some "x" ∈ pressed_keys s') /\
  pressed_keys s' <> pressed_keys s.
Proof.
  cbv zeta.
  assert (Hin : Some "x" ∈ pressed_keys
                  (exec (on_press (KeyCode (Some "x"))) (__init__ None None)))
    by (vm_compute; reflexivity).
  assert (Hnin : Some "x" ∉ pressed_keys (__init__ None None))
    by (simpl; apply not_elem_of_empty).
  split; [| split; [exact Hnin | split; [exact Hin |]]].
  - unfold recognized. rewrite !elem_of_union, !elem_of_singleton.
    intros [[[? | ?] | ?] | ?]; discriminate.
  - intros Heq. apply Hnin. rewrite <- Heq. exact Hin.
Qed.

(** C6. Releasing a key that is not in the key set, and pressing a key
    that is, leave the whole node as it was: the set and the register are
    unchanged and [update_target_velocities] does not run. A key without
    a character is in neither case ever in the set. *)
Theorem absent_release_and_held_press_are_noops (k : key) (s : Node) :
  ((forall c, k = KeyCode c -> c ∉ pressed_keys s) ->
   on_release k s = (Ok tt, s) /\
   pressed_keys (exec (on_release k) s) = pressed_keys s /\
   target (exec (on_release k) s) = target s /\
   update_calls (exec (on_release k) s) = update_calls s) /\
  ((forall c, k = KeyCode c -> c ∈ pressed_keys s) ->
   on_press k s = (Ok tt, s) /\
   pressed_keys (exec (on_press k) s) = pressed_keys s /\
   target (exec (on_press k) s) = target s /\
   update_calls (exec (on_press k) s) = update_calls s).
Proof.
  split; intros Hk.
  - assert (He : on_release k s = (Ok tt, s)).
    { destruct k as [c | name]; [| apply on_release_special].
      apply on_release_absent. apply Hk. reflexivity. }
    unfold exec. rewrite He. auto.
  - assert (He : on_press k s = (Ok tt, s)).
    { destruct k as [c | name]; [| apply on_press_special].
      apply on_press_held. apply Hk. reflexivity. }
    unfold exec. rewrite He. auto.
Qed.

Lemma absent_release_and_held_press_are_noops_witness :
  on_release kw (__init__ None None) = (Ok tt, __init__ None None) /\
  on_press kw forward_sent = (Ok tt, forward_sent).
Proof.
  split.
  - apply (absent_release_and_held_press_are_noops kw (__init__ None None)).
    intros c _. simpl. apply not_elem_of_empty.
  - apply (absent_release_and_held_press_are_noops kw forward_sent).
    intros c Hc. injection Hc as <-. vm_compute. reflexivity.
Defined.

(** One callback acts on the key set as a set insert or a set remove. *)
Lemma pressed_keys_callback c s :
  pressed_keys (exec (run_callback c) s) = net_effect (pressed_keys s) c.
Proof.
  destruct c as [k | k |]; simpl.
  - rewrite exec_on_press. destruct k as [ch | name]; [| reflexivity].
    case_bool_decide as Hin.
    + symmetry. apply subseteq_union_1_L, singleton_subseteq_l, Hin.
    + exact (proj1 (update_target_velocities_frame
                      (set_pressed_keys ({[ch]} ∪ pressed_keys s) s))).
  - rewrite exec_on_release. destruct k as [ch | name]; [| reflexivity].
    case_bool_decide as Hin.
    + exact (proj1 (update_target_velocities_frame
                      (set_pressed_keys (pressed_keys s ∖ {[ch]}) s))).
    + symmetry. apply difference_disjoint_L, disjoint_singleton_r, Hin.
  - apply timer_frame.
Qed.

Lemma pressed_keys_run cs s :
  pressed_keys (run cs s) = foldl net_effect (pressed_keys s) cs.
Proof.
  revert s. induction cs as [| c cs IH]; intros s; [reflexivity |].
  simpl. rewrite IH, pressed_keys_callback. reflexivity.
Qed.

(** On the recognized keys the contract of the specification and plain
    insert and remove agree. *)
Lemma KeyState_event_net_effect (held : gset pychar) c :
  KeyState_event (held ∩ recognized) c = net_effect held c ∩ recognized.
Proof.
  destruct c as [[ch | name] | [ch | name] |]; simpl; try reflexivity.
  - unfold KeyState_press. case_bool_decide as Hc.
    + destruct Hc as [Hr Hn]. apply set_eq. intros k.
      rewrite !elem_of_intersection, !elem_of_union, elem_of_intersection,
        elem_of_singleton.
      split; [intros [-> | [? ?]]; tauto | tauto].
    + apply set_eq. intros k.
      rewrite !elem_of_intersection, !elem_of_union, elem_of_singleton.
      split; [tauto |]. intros [[-> | Hk] Hr]; [| tauto].
      destruct (decide (ch ∈ held)) as [Hin | Hnin]; [tauto |].
      exfalso. apply Hc. rewrite elem_of_intersection. tauto.
  - unfold KeyState_release. case_bool_decide as Hc.
    + apply set_eq. intros k.
      rewrite !elem_of_intersection, !elem_of_difference,
        elem_of_intersection. tauto.
    + apply set_eq. intros k.
      rewrite !elem_of_intersection, !elem_of_difference, elem_of_singleton.
      split; [| tauto]. intros [Hk Hr]. repeat split; try assumption.
      intros ->. apply Hc. rewrite elem_of_intersection. tauto.
Qed.

(** C7. After any sequence of callbacks on a new node, the key set is
    the net effect of the key events taken one by one as set insert
    (key-down) and set remove (key-up) of the character of the key; keys
    without a character and ticks do not touch it. On the recognized keys
    this is the outcome of the [press] and [release] contract of the
    specification. *)
Theorem key_state_net_effect (lo ao : option float) (cs : list callback) :
  pressed_keys (run cs (__init__ lo ao)) = foldl net_effect ∅ cs /\
  pressed_keys (run cs (__init__ lo ao)) ∩ recognized
    = foldl KeyState_event ∅ cs.
Proof.
  split; [apply pressed_keys_run |].
  rewrite pressed_keys_run. simpl.
  rewrite <- (intersection_empty_l_L recognized) at 2.
  generalize (∅ : gset pychar).
  induction cs as [| c cs IH]; intros held; [reflexivity |].
  simpl. rewrite KeyState_event_net_effect. apply IH.
Qed.

(** ** The register *)

(** C8. In every reachable node, and after a resolution from any node,
    the linear component of the register is 0, [linear_speed] or
    [-linear_speed] and the angular component is 0, [angular_speed] or
    [-angular_speed]. *)
Theorem target_velocity_invariant (s : Node) :
  let lin_ok v := v = f0 \/ v = linear_speed s \/ v = SFopp (linear_speed s) in
  let ang_ok v := v = f0 \/ v = angular_speed s \/ v = SFopp (angular_speed s) in
  (lin_ok (target_linear_vel (exec update_target_velocities s)) /\
   ang_ok (target_angular_vel (exec update_target_velocities s))) /\
  (reachable s ->
   lin_ok (target_linear_vel s) /\ ang_ok (target_angular_vel s)).
Proof.
  intros lin_ok ang_ok.
  assert (Hres : lin_ok (target_linear_vel (exec update_target_velocities s)) /\
                 ang_ok (target_angular_vel (exec update_target_velocities s))).
  { subst lin_ok ang_ok. cbv beta.
    rewrite update_target_velocities_linear, update_target_velocities_angular.
    split; repeat case_bool_decide; auto. }
  split; [exact Hres |].
  intros Hr. pose proof (reachable_in_sync s Hr) as Hsync.
  unfold in_sync, target in Hsync. injection Hsync as -> ->. exact Hres.
Qed.

Lemma target_velocity_invariant_witness :
  let s := all_held in
  (target_linear_vel s = f0 \/ target_linear_vel s = linear_speed s \/
   target_linear_vel s = SFopp (linear_speed s)) /\
  (target_angular_vel s = f0 \/ target_angular_vel s = angular_speed s \/
   target_angular_vel s = SFopp (angular_speed s)).
Proof.
  exact (proj2 (target_velocity_invariant all_held) all_held_reachable).
Defined.

(** ** The last published message *)

(** While the node spins, [last_published_twist] is the last message
    handed to the publisher, and [Twist()] as long as there is none. *)
Lemma last_published_twist_is_last s :
  reachable s ->
  last_published_twist s = default Twist_new (last (publisher_ s)).
Proof.
  induction 1 as [lo ao | s c Hs IH]; [reflexivity |].
  destruct c as [k | k |].
  - destruct (key_callback_frame (key_down k) s ltac:(discriminate))
      as (Hp & Hl & _).
    rewrite Hp, Hl. exact IH.
  - destruct (key_callback_frame (key_up k) s ltac:(discriminate))
      as (Hp & Hl & _).
    rewrite Hp, Hl. exact IH.
  - simpl. rewrite exec_publish_twist_if_changed.
    destruct (differs s); [| exact IH].
    simpl. rewrite last_snoc. reflexivity.
Qed.

(** C9, as the code has it. [last_published_twist] is set at
    construction to the zero command [Twist()]; a tick that sends nothing
    and every key event leave it unchanged, and a tick that sends sets it
    to the message sent, so in every reachable node it is the last message
    sent, or [Twist()] before the first one. The first tick therefore
    sends exactly when the register differs from (0, 0). *)
Theorem last_published_twist_lifecycle (s : Node) :
  (forall lo ao, last_published_twist (__init__ lo ao) = Twist_new) /\
  (let s' := exec publish_twist_if_changed s in
   (differs s = false ->
    publisher_ s' = publisher_ s /\
    last_published_twist s' = last_published_twist s) /\
   (differs s = true ->
    publisher_ s' = publisher_ s ++ [sampled_twist s] /\
    last_published_twist s' = sampled_twist s)) /\
  (forall c, c <> timer ->
     last_published_twist (exec (run_callback c) s) = last_published_twist s) /\
  (reachable s ->
   last_published_twist s = default Twist_new (last (publisher_ s))) /\
  (reachable s -> publisher_ s = [] ->
   publisher_ (exec publish_twist_if_changed s)
   = if py_ne (target_linear_vel s) f0 || py_ne (target_angular_vel s) f0
     then [sampled_twist s] else []).
Proof.
  split; [reflexivity |].
  split; [| split; [| split]].
  - cbv zeta. rewrite exec_publish_twist_if_changed.
    split; intros ->; split; reflexivity.
  - intros c Hc. apply (key_callback_frame c s Hc).
  - apply last_published_twist_is_last.
  - intros Hr Hp.
    pose proof (last_published_twist_is_last s Hr) as Hl.
    rewrite Hp in Hl. simpl in Hl.
    rewrite exec_publish_twist_if_changed. unfold differs. rewrite Hl. simpl.
    destruct (py_ne _ _ || py_ne _ _); simpl; rewrite ?Hp; reflexivity.
Qed.

Lemma last_published_twist_lifecycle_witness :
  let s := run [key_down kw] (__init__ None None) in
  let s' := exec publish_twist_if_changed s in
  (publisher_ s' = publisher_ s ++ [sampled_twist s] /\
   last_published_twist s' = sampled_twist s) /\
  last_published_twist (exec (run_callback (key_down ka)) s)
    = last_published_twist s /\
  publisher_ s' = [sampled_twist s].
Proof.
  cbv zeta.
  pose proof (last_published_twist_lifecycle
                (run [key_down kw] (__init__ None None)))
    as (_ & [_ Hsend] & Hkey & _ & Hfirst).
  split; [apply Hsend; vm_compute; reflexivity |].
  split; [apply Hkey; discriminate |].
  apply (Hfirst (reachable_run [key_down kw] _ (reachable_init None None))).
  vm_compute. reflexivity.
Defined.

(** C9 as stated fails: the new node already holds a last message, the
    zero command, and its first tick, sampling (0, 0), finds no
    difference and sends nothing. *)
Lemma last_emitted_none_counterexample :
  let s := __init__ None None in
  publisher_ s = [] /\
  last_published_twist s = Twist_new /\
  target s = (f0, f0) /\
  differs s = false /\
  publisher_ (exec publish_twist_if_changed s) = [].
Proof. cbv zeta. repeat split. Qed.

(** * Further properties of the node *)

(** ** Exceptions *)

(** X1. No callback ever raises: [on_press] and [on_release] return
    normally for every key, with or without a character, the tick returns
    normally, and so a spin over any callbacks ends only the way the
    executor ends it. *)
Theorem callbacks_never_raise (k : key) (cs : list callback) (s : Node) :
  fst (on_press k s) = Ok tt /\
  fst (on_release k s) = Ok tt /\
  fst (publish_twist_if_changed s) = Ok tt /\
  fst (spin cs spin_returns s) = Ok tt /\
  (forall e, fst (spin cs (spin_raises e) s) = Raise e).
Proof.
  split; [apply (run_callback_ok (key_down k)) |].
  split; [apply (run_callback_ok (key_up k)) |].
  split; [apply (run_callback_ok timer) |].
  split; [| intros e]; rewrite spin_run; reflexivity.
Qed.

(** X2. An exception other than [KeyboardInterrupt] that leaves the spin
    is not swallowed by [main]: it is raised again, after [destroy_node]
    has sent the stop command as the last message. *)
Theorem main_reraises_other_exceptions lo ao cs (e : exn) :
  e <> KeyboardInterrupt ->
  fst (main lo ao cs (spin_raises e)) = Raise e /\
  last (publisher_ (snd (main lo ao cs (spin_raises e)))) = Some Twist_new.
Proof.
  intros He. rewrite main_eq. simpl.
  destruct (decide (e = KeyboardInterrupt)); [contradiction |].
  split; [reflexivity | apply last_snoc].
Qed.

Lemma main_reraises_other_exceptions_witness :
  fst (main None None [key_down kw; timer] (spin_raises (OtherError "rcl")))
  = Raise (OtherError "rcl").
Proof.
  apply (main_reraises_other_exceptions None None [key_down kw; timer]
           (OtherError "rcl")).
  discriminate.
Defined.

(** ** Configuration *)

Lemma callback_speeds c s :
  linear_speed (exec (run_callback c) s) = linear_speed s /\
  angular_speed (exec (run_callback c) s) = angular_speed s.
Proof.
  destruct c as [k | k |].
  - pose proof (key_callback_frame (key_down k) s ltac:(discriminate)) as Hf.
    simpl in *. tauto.
  - pose proof (key_callback_frame (key_up k) s ltac:(discriminate)) as Hf.
    simpl in *. tauto.
  - pose proof (timer_frame s) as Hf. simpl in *. tauto.
Qed.

Lemma run_speeds cs s :
  linear_speed (run cs s) = linear_speed s /\
  angular_speed (run cs s) = angular_speed s.
Proof.
  revert s. induction cs as [| c cs IH]; intros s; [split; reflexivity |].
  simpl. destruct (IH (exec (run_callback c) s)) as [-> ->].
  apply callback_speeds.
Qed.

(** X3. The two speeds are read once: after any callbacks the node still
    holds the values given at start-up, or the defaults 0.5 and 1.0 where
    none was given. *)
Theorem speeds_never_change lo ao (cs : list callback) :
  linear_speed (run cs (__init__ lo ao)) = default f0_5 lo /\
  angular_speed (run cs (__init__ lo ao)) = default f1 ao.
Proof.
  destruct (run_speeds cs (__init__ lo ao)) as [-> ->].
  destruct lo, ao; split; reflexivity.
Qed.

(** ** What reaches the publisher *)

Lemma callback_publishes c s :
  exists sent,
    publisher_ (exec (run_callback c) s) = publisher_ s ++ sent /\
    length sent <= count_timers [c].
Proof.
  destruct c as [k | k |].
  - exists []. rewrite app_nil_r.
    split; [apply (key_callback_frame (key_down k)); discriminate | simpl; lia].
  - exists []. rewrite app_nil_r.
    split; [apply (key_callback_frame (key_up k)); discriminate | simpl; lia].
  - simpl. rewrite exec_publish_twist_if_changed. destruct (differs s).
    + exists [sampled_twist s]. split; [reflexivity | simpl; lia].
    + exists []. rewrite app_nil_r. split; [reflexivity | simpl; lia].
Qed.

(** X4. The publisher only ever grows, and by at most one message per
    timer tick: after any callbacks the messages sent before are still
    there in order, followed by no more new ones than there were ticks.
    Key events alone therefore send nothing. *)
Theorem emissions_bounded_by_ticks (cs : list callback) (s : Node) :
  exists sent,
    publisher_ (run cs s) = publisher_ s ++ sent /\
    length sent <= count_timers cs /\
    (count_timers cs = 0 -> publisher_ (run cs s) = publisher_ s).
Proof.
  assert (H : exists sent, publisher_ (run cs s) = publisher_ s ++ sent /\
                           length sent <= count_timers cs).
  { revert s. induction cs as [| c cs IH]; intros s.
    - exists []. rewrite app_nil_r. split; [reflexivity | simpl; lia].
    - simpl run. destruct (IH (exec (run_callback c) s)) as (l2 & -> & Hl2).
      destruct (callback_publishes c s) as (l1 & -> & Hl1).
      exists (l1 ++ l2). rewrite app_assoc. split; [reflexivity |].
      rewrite length_app. destruct c; simpl in *; lia. }
  destruct H as (sent & Hp & Hl). exists sent.
  split; [exact Hp | split; [exact Hl |]].
  intros H0. rewrite Hp. destruct sent; [apply app_nil_r | simpl in Hl; lia].
Qed.

Lemma emissions_bounded_by_ticks_witness :
  publisher_ (run [key_down kw; key_up kw; key_down ka] forward_sent)
  = publisher_ forward_sent.
Proof.
  destruct (emissions_bounded_by_ticks
              [key_down kw; key_up kw; key_down ka] forward_sent)
    as (sent & _ & _ & H).
  apply H. reflexivity.
Defined.






Lemma target_in_range s :
  reachable s ->
  (target_linear_vel s = f0 \/ target_linear_vel s = linear_speed s \/
   target_linear_vel s = SFopp (linear_speed s)) /\
  (target_angular_vel s = f0 \/ target_angular_vel s = angular_speed s \/
   target_angular_vel s = SFopp (angular_speed s)).
Proof.
  intros Hr. pose proof (reachable_in_sync s Hr) as Hsync.
  unfold in_sync, target in Hsync. injection Hsync as -> ->.
  rewrite update_target_velocities_linear, update_target_velocities_angular.
  split; repeat case_bool_decide; auto.
Qed.

(** X6. Every message a tick sends is well formed: [linear.y],
    [linear.z], [angular.x] and [angular.y] are 0.0, [linear.x] is 0,
    [linear_speed] or its negation, and [angular.z] is 0, [angular_speed]
    or its negation. *)
Theorem published_messages_well_formed (s : Node) :
  reachable s ->
  Forall (well_formed (linear_speed s) (angular_speed s)) (publisher_ s).
Proof.
  intros Hr.
  induction Hr as [lo ao | s c Hs IH]; [constructor |].
  destruct (callback_speeds c s) as [-> ->].
  destruct c as [k | k |].
  - destruct (key_callback_frame (key_down k) s ltac:(discriminate))
      as (-> & _). exact IH.
  - destruct (key_callback_frame (key_up k) s ltac:(discriminate))
      as (-> & _). exact IH.
  - simpl. rewrite exec_publish_twist_if_changed.
    destruct (differs s); [| exact IH].
    simpl. apply Forall_app. split; [exact IH |].
    constructor; [| constructor].
    destruct (target_in_range s Hs) as [Hl Ha].
    unfold well_formed, sampled_twist; simpl. tauto.
Qed.

Lemma published_messages_well_formed_witness :
  Forall (well_formed f0_5 f1)
    (publisher_ (run [key_down kw; timer; key_down kd; timer; key_up kw; timer]
                   (__init__ None None))).
Proof.
  apply (published_messages_well_formed
           (run [key_down kw; timer; key_down kd; timer; key_up kw; timer]
              (__init__ None None))).
  apply reachable_run. constructor.
Defined.

(** ** Key events in sequence *)

Lemma reachable_target s1 s2 :
  reachable s1 -> reachable s2 ->
  (forall k, k ∈ recognized -> k ∈ pressed_keys s1 <-> k ∈ pressed_keys s2) ->
  linear_speed s1 = linear_speed s2 ->
  angular_speed s1 = angular_speed s2 ->
  target s1 = target s2.
Proof.
  intros H1 H2 Hk Hl Ha.
  rewrite (reachable_in_sync s1 H1), (reachable_in_sync s2 H2).
  apply target_update_recognized; assumption.
Qed.

Lemma press_release_restores c s :
  reachable s -> c ∉ pressed_keys s ->
  let s' := run [key_down (KeyCode c); key_up (KeyCode c)] s in
  pressed_keys s' = pressed_keys s /\
  target s' = target s /\
  publisher_ s' = publisher_ s /\
  last_published_twist s' = last_published_twist s.
Proof.
  intros Hr Hc s'.
  assert (Hp : pressed_keys s' = pressed_keys s).
  { subst s'. rewrite pressed_keys_run. simpl.
    apply set_eq. intros k.
    rewrite elem_of_difference, elem_of_union, elem_of_singleton.
    split; [tauto |]. intros Hk. split; [tauto |]. intros ->. contradiction. }
  split; [exact Hp |].
  split.
  - apply reachable_target.
    + apply reachable_run, Hr.
    + exact Hr.
    + intros k _. rewrite Hp. reflexivity.
    + apply run_speeds.
    + apply run_speeds.
  - apply (key_run_frame [key_down (KeyCode c); key_up (KeyCode c)] s).
    repeat constructor; discriminate.
Qed.

(** X7. Pressing a key that is not held and releasing it again brings the
    node back: the key set, the register, the publisher and the last
    message are what they were before, whatever the key. *)
Theorem press_then_release_round_trip (c : pychar) (s : Node) :
  reachable s -> c ∉ pressed_keys s ->
  let s' := run [key_down (KeyCode c); key_up (KeyCode c)] s in
  pressed_keys s' = pressed_keys s /\
  target s' = target s /\
  publisher_ s' = publisher_ s /\
  last_published_twist s' = last_published_twist s.
Proof. apply press_release_restores. Qed.

Lemma press_then_release_round_trip_witness :
  target (run [key_down ks; key_up ks] forward_sent) = target forward_sent.
Proof.
  apply (press_then_release_round_trip (Some "s") forward_sent).
  - apply reachable_run. constructor.
  - vm_compute. discriminate.
Defined.

(** X8. A key tapped between two ticks is never seen downstream: if a key
    that is not held goes down and up again before the timer fires, the
    tick sends exactly what it would have sent without the tap. *)
Theorem tap_between_ticks_sends_nothing (c : pychar) (s : Node) :
  reachable s -> c ∉ pressed_keys s ->
  publisher_ (run [key_down (KeyCode c); key_up (KeyCode c); timer] s)
  = publisher_ (run [timer] s).
Proof.
  intros Hr Hc.
  pose proof (press_release_restores c s Hr Hc) as H.
  change (run [key_down (KeyCode c); key_up (KeyCode c); timer] s)
    with (exec publish_twist_if_changed
            (run [key_down (KeyCode c); key_up (KeyCode c)] s)).
  change (run [timer] s) with (exec publish_twist_if_changed s).
  cbv zeta in H.
  generalize dependent (run [key_down (KeyCode c); key_up (KeyCode c)] s).
  intros s1 (_ & Ht & Hp & Hl).
  rewrite !exec_publish_twist_if_changed.
  rewrite (differs_ext s1 s Ht Hl).
  unfold target in Ht. injection Ht as Ht1 Ht2.
  destruct (differs s); [| exact Hp].
  unfold sampled_twist. simpl. rewrite Hp, Ht1, Ht2. reflexivity.
Qed.

Lemma tap_between_ticks_sends_nothing_witness :
  publisher_ (run [key_down kw; key_up kw; timer] (__init__ None None))
  = publisher_ (run [timer] (__init__ None None)).
Proof.
  apply (tap_between_ticks_sends_nothing (Some "w") (__init__ None None)).
  - constructor.
  - simpl. apply not_elem_of_empty.
Defined.

(** X9. Only 'w', 's', 'a' and 'd' move the robot: in a reachable node
    the register depends on the key set only through which of these four
    are held, and it is (0, 0) when none of them is, whatever other keys
    are down. *)
Theorem only_recognized_keys_move (s s' : Node) :
  reachable s ->
  (pressed_keys s ∩ recognized = ∅ -> target s = (f0, f0)) /\
  (reachable s' ->
   pressed_keys s ∩ recognized = pressed_keys s' ∩ recognized ->
   linear_speed s = linear_speed s' -> angular_speed s = angular_speed s' ->
   target s = target s').
Proof.
  intros Hr. split.
  - intros Hn. rewrite (reachable_in_sync s Hr). unfold target.
    rewrite update_target_velocities_linear, update_target_velocities_angular.
    assert (Hout : forall k, k ∈ recognized -> k ∉ pressed_keys s).
    { intros k Hk Hin. apply (not_elem_of_empty (C:=gset pychar) k).
      rewrite <- Hn. apply elem_of_intersection. tauto. }
    rewrite !bool_decide_eq_false_2
      by (apply Hout; unfold recognized; set_solver).
    reflexivity.
  - intros Hr' Hk Hl Ha. apply reachable_target; try assumption.
    intros k Hin. split; intros H.
    + assert (H' : k ∈ pressed_keys s ∩ recognized)
        by (apply elem_of_intersection; tauto).
      rewrite Hk in H'. apply elem_of_intersection in H'. tauto.
    + assert (H' : k ∈ pressed_keys s' ∩ recognized)
        by (apply elem_of_intersection; tauto).
      rewrite <- Hk in H'. apply elem_of_intersection in H'. tauto.
Qed.

Lemma only_recognized_keys_move_witness :
  target (run [key_down (KeyCode (Some "W")); key_down (Key "shift");
               key_down (KeyCode (Some "x")); key_down (KeyCode None)]
            (__init__ None None)) = (f0, f0).
Proof.
  apply (proj1 (only_recognized_keys_move
           (run [key_down (KeyCode (Some "W")); key_down (Key "shift");
                 key_down (KeyCode (Some "x")); key_down (KeyCode None)]
              (__init__ None None)) (__init__ None None)
           (reachable_run _ _ (reachable_init None None)))).
  vm_compute. reflexivity.
Defined.

Lemma on_press_twice k s :
  exec (on_press k) (exec (on_press k) s) = exec (on_press k) s.
Proof.
  rewrite (exec_on_press k s). destruct k as [c | name]; [| reflexivity].
  case_bool_decide as Hin.
  - rewrite exec_on_press, bool_decide_eq_true_2 by assumption. reflexivity.
  - rewrite exec_on_press, bool_decide_eq_true_2; [reflexivity |].
    rewrite (proj1 (update_target_velocities_frame
                      (set_pressed_keys ({[c]} ∪ pressed_keys s) s))).
    simpl. apply elem_of_union_l, elem_of_singleton. reflexivity.
Qed.

Lemma on_release_twice k s :
  exec (on_release k) (exec (on_release k) s) = exec (on_release k) s.
Proof.
  rewrite (exec_on_release k s).
  destruct k as [c | name]; [| apply (exec_on_release (Key name))].
  case_bool_decide as Hin.
  - rewrite exec_on_release, bool_decide_eq_false_2; [reflexivity |].
    rewrite (proj1 (update_target_velocities_frame
                      (set_pressed_keys (pressed_keys s ∖ {[c]}) s))).
    simpl. rewrite elem_of_difference, elem_of_singleton. tauto.
  - rewrite exec_on_release, bool_decide_eq_false_2 by assumption.
    reflexivity.
Qed.

Lemma run_repeated c n s :
  (forall s', exec (run_callback c) (exec (run_callback c) s')
              = exec (run_callback c) s') ->
  run (replicate (S n) c) s = exec (run_callback c) s.
Proof.
  intros Hc. revert s. induction n as [| n IH]; intros s; [reflexivity |].
  change (run (replicate (S (S n)) c) s)
    with (run (replicate (S n) c) (exec (run_callback c) s)).
  rewrite IH. apply Hc.
Qed.

(** X10. Repeated events for one key collapse: any number of key-down
    events in a row for the same key (keyboard auto-repeat) leave the node
    exactly as the first one did, and so do repeated key-up events;
    [update_target_velocities] runs at most once. *)
Theorem repeated_key_events_collapse (k : key) (n : nat) (s : Node) :
  run (replicate (S n) (key_down k)) s = exec (on_press k) s /\
  run (replicate (S n) (key_up k)) s = exec (on_release k) s.
Proof.
  split.
  - apply (run_repeated (key_down k)). intros s'. apply on_press_twice.
  - apply (run_repeated (key_up k)). intros s'. apply on_release_twice.
Qed.

(** X11. [update_target_velocities] runs exactly when the key set
    changes: a callback that leaves [pressed_keys] as it was does not run
    it, and one that changes [pressed_keys] runs it once. *)
Theorem resolution_runs_iff_key_set_changes (c : callback) (s : Node) :
  update_calls (exec (run_callback c) s)
  = if bool_decide (pressed_keys (exec (run_callback c) s) = pressed_keys s)
    then update_calls s else S (update_calls s).
Proof.
  destruct c as [k | k |]; simpl.
  - rewrite exec_on_press. destruct k as [ch | name];
      [| rewrite bool_decide_eq_true_2 by reflexivity; reflexivity].
    case_bool_decide as Hin;
      [rewrite bool_decide_eq_true_2 by reflexivity; reflexivity |].
    destruct (update_target_velocities_frame
                (set_pressed_keys ({[ch]} ∪ pressed_keys s) s))
      as (Hp & _ & _ & _ & _ & Hu).
    rewrite Hp, Hu. simpl.
    rewrite bool_decide_eq_false_2; [reflexivity |].
    intros Heq. apply Hin. rewrite <- Heq.
    apply elem_of_union_l, elem_of_singleton. reflexivity.
  - rewrite exec_on_release. destruct k as [ch | name];
      [| rewrite bool_decide_eq_true_2 by reflexivity; reflexivity].
    case_bool_decide as Hin;
      [| rewrite bool_decide_eq_true_2 by reflexivity; reflexivity].
    destruct (update_target_velocities_frame
                (set_pressed_keys (pressed_keys s ∖ {[ch]}) s))
      as (Hp & _ & _ & _ & _ & Hu).
    rewrite Hp, Hu. simpl.
    rewrite bool_decide_eq_false_2; [reflexivity |].
    intros Heq. rewrite <- Heq in Hin.
    apply elem_of_difference in Hin. destruct Hin as [_ Hn].
    apply Hn, elem_of_singleton. reflexivity.
  - destruct (timer_frame s) as (_ & -> & _ & _ & ->).
    rewrite bool_decide_eq_true_2 by reflexivity. reflexivity.
Qed.

(** ** Ticks after a history *)

Lemma is_nan_opp a : is_nan (SFopp a) = is_nan a.
Proof. destruct a; reflexivity. Qed.

(** X13. With speeds that are not NaN, and so with the defaults, one tick
    after any history shuts the gate: any number of further ticks leave
    the node unchanged and send nothing. *)
Theorem ticks_after_a_tick_are_idle lo ao (cs : list callback) (n : nat) :
  is_nan (declare_parameter f0_5 lo) = false ->
  is_nan (declare_parameter f1 ao) = false ->
  let s := exec publish_twist_if_changed (run cs (__init__ lo ao)) in
  run (replicate n timer) s = s.
Proof.
  intros Hl Ha s. apply ticks_idle. subst s.
  pose proof (reachable_run cs _ (reachable_init lo ao)) as Hr.
  destruct (target_in_range _ Hr) as [Htl Hta].
  destruct (run_speeds cs (__init__ lo ao)) as [Hsl Hsa].
  rewrite Hsl in Htl. rewrite Hsa in Hta. simpl in Htl, Hta.
  apply differs_after_tick.
  - destruct Htl as [-> | [-> | ->]];
      [reflexivity | exact Hl | rewrite is_nan_opp; exact Hl].
  - destruct Hta as [-> | [-> | ->]];
      [reflexivity | exact Ha | rewrite is_nan_opp; exact Ha].
Qed.

Lemma ticks_after_a_tick_are_idle_witness :
  run (replicate 5 timer) forward_sent = forward_sent.
Proof.
  apply (ticks_after_a_tick_are_idle None None [key_down kw] 5); reflexivity.
Defined.

(** X14. With both speeds zero, of either sign, the ticks never send
    anything: the register only ever holds 0.0 or -0.0, which the gate
    finds equal to the 0.0 of the initial last message. *)
Theorem zero_speeds_never_publish (b1 b2 : bool) (cs : list callback) :
  let s := run cs (__init__ (Some (S754_zero b1)) (Some (S754_zero b2))) in
  publisher_ s = [] /\ last_published_twist s = Twist_new.
Proof.
  induction cs as [| c cs IH] using rev_ind; [split; reflexivity |].
  cbv zeta in *. rewrite run_app.
  set (s := run cs (__init__ (Some (S754_zero b1)) (Some (S754_zero b2)))) in *.
  change (run [c] s) with (exec (run_callback c) s).
  destruct IH as [Hp Hlast].
  destruct c as [k | k |].
  - destruct (key_callback_frame (key_down k) s ltac:(discriminate))
      as (-> & -> & _). tauto.
  - destruct (key_callback_frame (key_up k) s ltac:(discriminate))
      as (-> & -> & _). tauto.
  - simpl. rewrite tick_idle; [tauto |].
    assert (Hr : reachable s) by (apply reachable_run; constructor).
    destruct (target_in_range s Hr) as [Htl Hta].
    destruct (run_speeds cs (__init__ (Some (S754_zero b1)) (Some (S754_zero b2))))
      as [Hsl Hsa].
    fold s in Hsl, Hsa. rewrite Hsl in Htl. rewrite Hsa in Hta.
    simpl in Htl, Hta.
    unfold differs. rewrite Hlast. simpl.
    destruct Htl as [-> | [-> | ->]], Hta as [-> | [-> | ->]];
      destruct b1, b2; reflexivity.
Qed.



(** * The two threads interleaved *)

(** ** The statements of a resolution *)

Lemma exec_update_statements s :
  run_pending update_statements (tick_update_calls s)
  = exec update_target_velocities s.
Proof.
  destruct s.
  cbv [run_pending update_statements foldl run_statement exec
       update_target_velocities bind get assign when ret pass snd
       tick_update_calls set_target_linear_vel set_target_angular_vel
       pressed_keys linear_speed angular_speed publisher_ target_linear_vel
       target_angular_vel last_published_twist update_calls].
  repeat case_bool_decide; first [reflexivity | contradiction].
Qed.

Lemma run_statement_frame st s :
  let s' := exec (run_statement st) s in
  pressed_keys s' = pressed_keys s /\
  linear_speed s' = linear_speed s /\
  angular_speed s' = angular_speed s /\
  publisher_ s' = publisher_ s /\
  last_published_twist s' = last_published_twist s /\
  update_calls s' = update_calls s.
Proof. destruct st; cbn [run_statement]; py_unfold; py_cases; auto 10. Qed.

Lemma run_statement_same_motion st s1 s2 :
  same_motion s1 s2 ->
  same_motion (exec (run_statement st) s1) (exec (run_statement st) s2).
Proof.
  unfold same_motion. intros (Hk & Hl & Ha & Htl & Hta).
  destruct st; cbn [run_statement]; py_unfold;
    rewrite <- ?Hk, <- ?Hl, <- ?Ha; py_cases; auto 10.
Qed.

Lemma run_pending_same_motion p s1 s2 :
  same_motion s1 s2 -> same_motion (run_pending p s1) (run_pending p s2).
Proof.
  revert s1 s2. induction p as [| st p IH]; intros s1 s2 H; [exact H |].
  simpl. apply IH, run_statement_same_motion, H.
Qed.

Lemma same_motion_target s1 s2 : same_motion s1 s2 -> target s1 = target s2.
Proof. unfold same_motion, target. intros (_ & _ & _ & -> & ->). reflexivity. Qed.

Lemma exec_gate twist s :
  exec (gate twist) s =
    if changed twist (last_published_twist s)
    then set_last_published_twist twist
           (set_publisher_ (publisher_ s ++ [twist]) s)
    else s.
Proof.
  unfold gate, changed. py_unfold.
  destruct (py_ne _ _ || py_ne _ _); reflexivity.
Qed.

Lemma gate_same_motion twist s : same_motion (exec (gate twist) s) s.
Proof.
  rewrite exec_gate. unfold same_motion.
  destruct (changed _ _); simpl; auto 10.
Qed.

(** ** Callbacks run in one piece *)

Lemma whole_tick_atomic sys :
  ticking sys = tick_waiting ->
  interleave whole_tick sys
  = mkSystem (exec publish_twist_if_changed (node sys)) (pending sys)
      tick_waiting.
Proof.
  intros Ht. unfold interleave, whole_tick. simpl. rewrite Ht. simpl.
  rewrite exec_gate, exec_publish_twist_if_changed. reflexivity.
Qed.

Lemma listener_steps_idle n s t :
  interleave (replicate n listener_step) (mkSystem s [] t) = mkSystem s [] t.
Proof. induction n as [| n IH]; [reflexivity | exact IH]. Qed.

Lemma listener_steps_update s t :
  interleave (replicate (length update_statements) listener_step)
    (mkSystem (tick_update_calls s) update_statements t)
  = mkSystem (exec update_target_velocities s) [] t.
Proof. rewrite <- exec_update_statements. reflexivity. Qed.

Lemma whole_key_callback_atomic c sys :
  c <> timer ->
  pending sys = [] ->
  interleave (whole_key_callback c) sys
  = mkSystem (exec (run_callback c) (node sys)) [] (ticking sys).
Proof.
  intros Hc Hp. destruct sys as [s p t]. simpl in Hp. subst p.
  unfold whole_key_callback.
  destruct c as [k | k |]; [| | congruence].
  - change (interleave (start (key_down k) :: ?l) ?sys)
      with (interleave l (step (start (key_down k)) sys)).
    cbn [step run_callback node pending ticking]. rewrite exec_on_press.
    destruct k as [ch | name]; simpl begin_on_press.
    + destruct (decide (ch ∈ pressed_keys s)) as [Hin | Hin].
      * rewrite bool_decide_eq_false_2 by (intros H; apply H, Hin).
        rewrite bool_decide_eq_true_2 by exact Hin.
        apply listener_steps_idle.
      * rewrite bool_decide_eq_true_2 by exact Hin.
        rewrite bool_decide_eq_false_2 by exact Hin.
        apply (listener_steps_update
                 (set_pressed_keys ({[ch]} ∪ pressed_keys s) s)).
    + apply listener_steps_idle.
  - change (interleave (start (key_up k) :: ?l) ?sys)
      with (interleave l (step (start (key_up k)) sys)).
    cbn [step run_callback node pending ticking]. rewrite exec_on_release.
    destruct k as [ch | name]; simpl begin_on_release.
    + case_bool_decide.
      * apply (listener_steps_update
                 (set_pressed_keys (pressed_keys s ∖ {[ch]}) s)).
      * apply listener_steps_idle.
    + apply listener_steps_idle.
Qed.

Lemma interleave_app sched1 sched2 sys :
  interleave (sched1 ++ sched2) sys = interleave sched2 (interleave sched1 sys).
Proof. apply foldl_app. Qed.

(** Every node between callbacks is met by a schedule that runs the
    callbacks one after the other. *)
Lemma reachable_interleave s :
  reachable s ->
  exists lo ao sched,
    interleave sched (boot lo ao) = mkSystem s [] tick_waiting.
Proof.
  induction 1 as [lo ao | s c _ (lo & ao & sched & IH)].
  - exists lo, ao, []. reflexivity.
  - exists lo, ao.
    destruct c as [k | k |].
    + exists (sched ++ whole_key_callback (key_down k)).
      rewrite interleave_app, IH.
      apply (whole_key_callback_atomic (key_down k)); [discriminate | reflexivity].
    + exists (sched ++ whole_key_callback (key_up k)).
      rewrite interleave_app, IH.
      apply (whole_key_callback_atomic (key_up k)); [discriminate | reflexivity].
    + exists (sched ++ whole_tick).
      rewrite interleave_app, IH.
      apply whole_tick_atomic. reflexivity.
Qed.

(** ** What every interleaving keeps *)

Lemma begin_on_press_cases k s :
  begin_on_press k s = (s, []) \/
  exists ch, begin_on_press k s
    = (tick_update_calls (set_pressed_keys ({[ch]} ∪ pressed_keys s) s),
       update_statements).
Proof.
  destruct k as [ch | name]; simpl; [| auto].
  case_bool_decide; [right; exists ch; reflexivity | auto].
Qed.

Lemma begin_on_release_cases k s :
  begin_on_release k s = (s, []) \/
  exists ch, begin_on_release k s
    = (tick_update_calls (set_pressed_keys (pressed_keys s ∖ {[ch]}) s),
       update_statements).
Proof.
  destruct k as [ch | name]; simpl; [| auto].
  case_bool_decide; [right; exists ch; reflexivity | auto].
Qed.

Lemma step_resolving a sys : resolving sys -> resolving (step a sys).
Proof.
  unfold resolving. destruct sys as [s p t].
  cbn [node pending ticking]. intros H.
  destruct a as [[k | k |] | |]; cbn [step node pending ticking].
  - destruct p; [| exact H].
    destruct (begin_on_press_cases k s) as [-> | [ch ->]];
      cbn [node pending ticking]; [exact H |].
    rewrite exec_update_statements.
    apply target_update_ext; reflexivity.
  - destruct p; [| exact H].
    destruct (begin_on_release_cases k s) as [-> | [ch ->]];
      cbn [node pending ticking]; [exact H |].
    rewrite exec_update_statements.
    apply target_update_ext; reflexivity.
  - destruct t; exact H.
  - destruct p as [| st p]; [exact H |]. cbn [node pending ticking].
    change (run_pending (st :: p) s)
      with (run_pending p (exec (run_statement st) s)) in H.
    rewrite H. pose proof (run_statement_frame st s) as Hf. simpl in Hf.
    symmetry. apply target_update_ext; tauto.
  - destruct t; try exact H. cbn [node pending ticking].
    pose proof (gate_same_motion twist s) as Hg.
    rewrite (same_motion_target _ _ (run_pending_same_motion p _ _ Hg)), H.
    destruct Hg as (Hk & Hl & Ha & _).
    symmetry. apply target_update_ext; assumption.
Qed.

Lemma interleave_resolving sched sys :
  resolving sys -> resolving (interleave sched sys).
Proof.
  revert sys. induction sched as [| a sched IH]; intros sys H; [exact H |].
  simpl. apply IH, step_resolving, H.
Qed.

Lemma boot_resolving lo ao : resolving (boot lo ao).
Proof. apply (reachable_in_sync _ (reachable_init lo ao)). Qed.

Lemma well_formed_new ls az : well_formed ls az Twist_new.
Proof. unfold well_formed. simpl. auto 10. Qed.

Lemma step_in_range ls az a sys :
  in_range ls az sys -> in_range ls az (step a sys).
Proof.
  unfold in_range. destruct sys as [s p t].
  cbn [node pending ticking]. intros (Hl & Ha & Htl & Hta & Htw & Hpub).
  destruct a as [[k | k |] | |]; cbn [step node pending ticking].
  - destruct p; [| auto 10].
    destruct (begin_on_press_cases k s) as [-> | [ch ->]];
      cbn [node pending ticking]; auto 10.
  - destruct p; [| auto 10].
    destruct (begin_on_release_cases k s) as [-> | [ch ->]];
      cbn [node pending ticking]; auto 10.
  - destruct t; cbn [node pending ticking]; auto 10.
  - destruct p as [| st p]; cbn [node pending ticking]; [auto 10 |].
    pose proof (run_statement_frame st s) as Hf. cbv zeta in Hf.
    destruct Hf as (_ & Hl' & Ha' & Hpub' & _).
    rewrite Hl', Ha', Hpub'.
    repeat (split; [first [assumption | idtac] |]); try assumption.
    + destruct st; cbn [run_statement]; py_unfold; py_cases; subst; auto.
    + destruct st; cbn [run_statement]; py_unfold; py_cases; subst; auto.
  - destruct t as [| twist | twist | twist]; cbn [node pending ticking];
      [auto 10 | | |].
    + repeat (split; [assumption |]). split; [| assumption].
      unfold well_formed in *. simpl in *. tauto.
    + repeat (split; [assumption |]). split; [| assumption].
      unfold well_formed in *. simpl in *. tauto.
    + rewrite exec_gate. destruct (changed _ _); simpl.
      * repeat (split; [assumption |]).
        split; [apply well_formed_new |].
        apply Forall_app. split; [assumption |].
        constructor; [exact Htw | constructor].
      * repeat (split; [assumption |]).
        split; [apply well_formed_new | assumption].
Qed.

Lemma interleave_in_range ls az sched sys :
  in_range ls az sys -> in_range ls az (interleave sched sys).
Proof.
  revert sys. induction sched as [| a sched IH]; intros sys H; [exact H |].
  simpl. apply IH, step_in_range, H.
Qed.

Lemma boot_in_range lo ao :
  in_range (linear_speed (__init__ lo ao)) (angular_speed (__init__ lo ao))
    (boot lo ao).
Proof.
  unfold in_range. simpl.
  repeat (split; [first [reflexivity | left; reflexivity] |]).
  split; [apply well_formed_new | constructor].
Qed.

(** The key set changes only when a key callback starts. *)
Lemma step_pressed_keys a sys :
  pending sys <> [] \/ a = listener_step \/ a = tick_step \/ a = start timer ->
  pressed_keys (node (step a sys)) = pressed_keys (node sys).
Proof.
  destruct sys as [s p t]. cbn [node pending ticking]. intros H.
  destruct a as [[k | k |] | |]; cbn [step node pending ticking].
  - destruct p; [| reflexivity].
    destruct H as [H | [H | [H | H]]]; [contradiction | discriminate ..].
  - destruct p; [| reflexivity].
    destruct H as [H | [H | [H | H]]]; [contradiction | discriminate ..].
  - destruct t; reflexivity.
  - destruct p as [| st p]; [reflexivity |]. cbn [node].
    apply run_statement_frame.
  - destruct t; try reflexivity. cbn [node].
    apply gate_same_motion.
Qed.

(** ** Consistency of reads *)

(** C10. In every interleaving of the two threads, the reads of the key
    set are consistent: the set changes only when a key callback starts,
    which the listener lets happen only once the resolution before it is
    over, so no statement of a resolution and no statement of a tick ever
    changes it, and once the pending statements of a resolution have run
    the register is the resolution of that one set. Of the register the
    tick is only sure to read, field by field, 0, a speed or its
    negation: every published message is well formed, but the pair need
    not be one the register ever held. *)
Theorem key_set_reads_consistent_in_every_interleaving
    lo ao (sched : list action) (a : action) :
  let sys := interleave sched (boot lo ao) in
  (pending sys <> [] \/ a = listener_step \/ a = tick_step \/ a = start timer ->
   pressed_keys (node (step a sys)) = pressed_keys (node sys)) /\
  resolving sys /\
  in_range (linear_speed (__init__ lo ao)) (angular_speed (__init__ lo ao)) sys.
Proof.
  intros sys. split; [apply step_pressed_keys |]. split.
  - apply interleave_resolving, boot_resolving.
  - apply interleave_in_range, boot_in_range.
Qed.

Lemma key_set_reads_consistent_in_every_interleaving_witness :
  let sys := interleave [start (key_down kw); listener_step] (boot None None) in
  pending sys <> [] /\
  pressed_keys (node (step (start (key_up kw)) sys)) = pressed_keys (node sys).
Proof.
  cbv zeta. split; [vm_compute; discriminate |].
  apply (proj1 (key_set_reads_consistent_in_every_interleaving None None
                  [start (key_down kw); listener_step] (start (key_up kw)))).
  left. vm_compute. discriminate.
Defined.

(** C10 as stated fails for the register. With 'w' held and (0.5, 0)
    sent, a tick reads [target_linear_vel] (0.5); the listener then runs
    the release of 'w' and the press of 'a'; the tick then reads
    [target_angular_vel] (1.0) and publishes (0.5, 1.0). At no point of
    the run does the register hold that pair, nor is it the resolution of
    the key set at any point of the run. *)
Lemma torn_register_read_counterexample :
  let sys := interleave torn_schedule (boot None None) in
  publisher_ (node sys)
  = [mkTwist (mkVector3 f0_5 f0 f0) (mkVector3 f0 f0 f0);
     mkTwist (mkVector3 f0_5 f0 f0) (mkVector3 f0 f0 f1)] /\
  Forall (fun sys' =>
            target (node sys') <> (f0_5, f1) /\
            target (exec update_target_velocities (node sys')) <> (f0_5, f1))
    (history torn_schedule (boot None None)).
Proof.
  cbv zeta. split; [vm_compute; reflexivity |].
  apply (Forall_fmap
           (fun sys' => (target (node sys'),
                         target (exec update_target_velocities (node sys'))))
           (fun p => p.1 <> (f0_5, f1) /\ p.2 <> (f0_5, f1))).
  match goal with |- Forall _ ?l => set (regs := l) end.
  vm_compute in regs. subst regs.
  repeat (constructor; [split; intros H; discriminate H |]).
  constructor.
Qed.

(** ** A tick the listener does not cut across *)

(** X12. After any interleaving of the two threads, a tick that starts
    while no listener callback is under way and runs to its end before
    the next one starts sends the resolution of the keys held at that
    moment: if the register differs from the last message, it appends one
    message whose [linear.x] is [-linear_speed] if 's' is held, else
    [linear_speed] if 'w' is held, else 0, whose [angular.z] is
    [-angular_speed] if 'd' is held, else [angular_speed] if 'a' is held,
    else 0, and whose other fields are 0; otherwise it sends nothing. *)
Theorem tick_sends_resolution_of_held_keys lo ao (sched : list action) :
  let sys := interleave sched (boot lo ao) in
  let s := node sys in
  pending sys = [] ->
  ticking sys = tick_waiting ->
  let lin := if bool_decide (Some "s" ∈ pressed_keys s)
             then SFopp (linear_speed s)
             else if bool_decide (Some "w" ∈ pressed_keys s)
                  then linear_speed s else f0 in
  let ang := if bool_decide (Some "d" ∈ pressed_keys s)
             then SFopp (angular_speed s)
             else if bool_decide (Some "a" ∈ pressed_keys s)
                  then angular_speed s else f0 in
  publisher_ (node (interleave whole_tick sys))
  = if differs s
    then publisher_ s ++ [mkTwist (mkVector3 lin f0 f0) (mkVector3 f0 f0 ang)]
    else publisher_ s.
Proof.
  intros sys s Hp Ht lin ang.
  rewrite whole_tick_atomic by exact Ht. cbn [node]. fold s.
  rewrite exec_publish_twist_if_changed.
  destruct (differs s); [| reflexivity].
  pose proof (interleave_resolving sched _ (boot_resolving lo ao)) as Hsync.
  fold sys in Hsync. unfold resolving in Hsync. rewrite Hp in Hsync.
  unfold run_pending, target in Hsync. simpl foldl in Hsync. fold s in Hsync.
  injection Hsync as Hl Ha.
  rewrite update_target_velocities_linear in Hl.
  rewrite update_target_velocities_angular in Ha.
  simpl. unfold sampled_twist. rewrite Hl, Ha. reflexivity.
Qed.

Lemma tick_sends_resolution_of_held_keys_witness :
  publisher_ (node (interleave (torn_schedule ++ whole_tick) (boot None None)))
  = [mkTwist (mkVector3 f0_5 f0 f0) (mkVector3 f0 f0 f0);
     mkTwist (mkVector3 f0_5 f0 f0) (mkVector3 f0 f0 f1);
     mkTwist (mkVector3 f0 f0 f0) (mkVector3 f0 f0 f1)].
Proof.
  rewrite interleave_app.
  rewrite (tick_sends_resolution_of_held_keys None None torn_schedule);
    vm_compute; reflexivity.
Defined.
